(** * Vertical temperature extrapolation of [to_Lorenz.py]

    A shallow embedding of [ext_temperature]
    (src/post_proc/py/interpolations/to_Lorenz.py, lines 50-144) and the
    properties of its two sweeps.

    Numbers.  The source computes on IEEE doubles held in an xarray
    [DataArray].  Here pressures, heights and temperatures are exact
    rationals ([Q]) and a cell is [option Q], [None] standing for NaN.
    Every structural fact of the routine (which level is read, which cell
    is written, which lapse rate is taken) is independent of rounding;
    where a filled value is compared with a formula the comparison is
    [Qeq]. *)

From Stdlib Require Import String.
From Stdlib Require Import List Bool Arith ZArith QArith Lia.
From Stdlib Require Import Permutation Sorted.
Import ListNotations.

Local Open Scope Q_scope.

(** ** The data array *)

(** A cell of the field: a temperature, or NaN. *)
Definition cell := option Q.

(** One entry of the [level] dimension: its label (pressure, hPa), the
    [standard_height] coordinate attached to it, and the values on the
    horizontal grid. *)
Record row : Type := mkRow {
  level : Q;
  standard_height : Q;
  values : list cell
}.

(** The array, in the storage order of its [level] dimension. *)
Definition field := list row.

(** ** A small error monad: [None] is a raised exception *)

Definition bind {A B : Type} (m : option A) (k : A -> option B) : option B :=
  match m with
  | Some a => k a
  | None => None
  end.

Notation "x <- m ;; k" := (bind m (fun x => k))
  (at level 61, m at next level, right associativity).

(** From [H : (x <- m ;; k) = Some b] to [m = Some x] and
    [H : k = Some b]. *)
Ltac inv_bind H :=
  match type of H with
  | bind ?m _ = Some _ =>
      let x := fresh "x" in
      let E := fresh "E" in
      destruct m as [x|] eqn:E; [cbn [bind] in H|discriminate H]
  end.

(** ** Indexing *)

(** Python / numpy indexing with an integer: a negative index counts from
    the end, anything outside [-len, len) raises [IndexError]. *)
Definition py_index {A : Type} (l : list A) (k : Z) : option A :=
  let n := Z.of_nat (length l) in
  if (0 <=? k)%Z then nth_error l (Z.to_nat k)
  else if (- n <=? k)%Z then nth_error l (Z.to_nat (n + k))
  else None.

(** [t.isel(level=k)]: positional selection along [level]. *)
Definition isel (t : field) (k : Z) : option row := py_index t k.

(** [t.sel(level=lev)]: selection by label; [KeyError] when no entry of the
    [level] coordinate carries the label.  The coordinate is an index of
    distinct labels; the first entry that carries the label is the one. *)
Fixpoint sel (t : field) (lev : Q) : option row :=
  match t with
  | [] => None
  | r :: t' => if Qeq_bool (level r) lev then Some r else sel t' lev
  end.

(** [t.loc[dict(level=lev)] = vs]: the values of the entry labelled [lev]
    are replaced, its coordinates stay. *)
Fixpoint set_level (t : field) (lev : Q) (vs : list cell) : field :=
  match t with
  | [] => []
  | r :: t' =>
      if Qeq_bool (level r) lev
      then mkRow (level r) (standard_height r) vs :: t'
      else r :: set_level t' lev vs
  end.

(** ** [np.sort] *)

Fixpoint insert_sorted (x : Q) (l : list Q) : list Q :=
  match l with
  | [] => [x]
  | y :: l' => if Qle_bool x y then x :: l else y :: insert_sorted x l'
  end.

Fixpoint sort (l : list Q) : list Q :=
  match l with
  | [] => []
  | x :: l' => insert_sorted x (sort l')
  end.

(** ** Cell arithmetic *)

Definition Qlt_bool (x y : Q) : bool := negb (Qle_bool y x).

(** Addition of doubles as far as NaN is concerned: NaN absorbs. *)
Definition nan_add (a b : cell) : cell :=
  match a, b with
  | Some x, Some y => Some (x + y)
  | _, _ => None
  end.

Definition isnan (c : cell) : bool :=
  match c with
  | None => true
  | Some _ => false
  end.

(** [np.isnan(t_p.values).any()] *)
Definition any_isnan (r : row) : bool := existsb isnan (values r).

(** The sentinel of the source, [-99999]. *)
Definition sentinel : Q := -99999.

(** [x.fillna(-99999)] on one cell. *)
Definition fillna (c : cell) : Q :=
  match c with
  | Some v => v
  | None => sentinel
  end.

(** The body of a fill on one cell (lines 93-108, and 128-143):
<<
    dummy = t_p.fillna(-99999)
    nans = dummy.where(dummy == -99999)
    extp_temp = nans + 99999 + t_above + dtemp
    dummy.where(dummy != -99999, extp_temp)
>> *)
Definition fill_cell (dtemp : Q) (c t_above : cell) : cell :=
  let dummy := fillna c in
  let nans := if Qeq_bool dummy sentinel then Some dummy else None in
  let extp_temp :=
    nan_add (nan_add (nan_add nans (Some 99999)) t_above) (Some dtemp) in
  if negb (Qeq_bool dummy sentinel) then Some dummy else extp_temp.

(** The same on the whole horizontal grid.  The entries of one array share
    the grid, so both lists have one length; a position the seed lacks
    reads as NaN. *)
Fixpoint fill_cells (dtemp : Q) (t_p t_above : list cell) : list cell :=
  match t_p with
  | [] => []
  | c :: cs => fill_cell dtemp c (hd None t_above)
               :: fill_cells dtemp cs (tl t_above)
  end.

(** [dtemp = dz * lapse] with
    [dz = t_above.standard_height - nans.standard_height]. *)
Definition dtemp_of (lapse : Q) (seed cur : row) : Q :=
  (standard_height seed - standard_height cur) * lapse.

Definition fill_row (lapse : Q) (cur seed : row) : list cell :=
  fill_cells (dtemp_of lapse seed cur) (values cur) (values seed).

(** ** Lapse rates *)

(** Lines 77-84. *)
Definition lapse_top_down (lev : Q) : Q :=
  if Qle_bool 226.32 lev then 6.5
  else if Qlt_bool lev 226.32 && Qlt_bool 54.74 lev then 0
  else -1.

(** Lines 120-123. *)
Definition lapse_bottom_up (lev : Q) : Q :=
  if Qle_bool 8.68 lev then -2.8 else 0.

(** ** The two sweeps *)

(** [for i in range(n): t = body(i, t)], started at [i]. *)
Fixpoint for_range (body : nat -> field -> option field)
         (i n : nat) (t : field) : option field :=
  match n with
  | O => Some t
  | S n' => t' <- body i t ;; for_range body (S i) n' t'
  end.

(** One iteration of the first loop (lines 69-108). *)
Definition top_down_body (plevs_sorted : list Q) (i : nat) (t : field)
  : option field :=
  lev <- nth_error plevs_sorted i ;;
  t_p <- sel t lev ;;
  let lapse := lapse_top_down lev in
  if any_isnan t_p && Qlt_bool 50 lev then
    t_above <- isel t (Z.of_nat i - 1) ;;
    Some (set_level t lev (fill_row lapse t_p t_above))
  else Some t.

(** One iteration of the second loop (lines 113-143). *)
Definition bottom_up_body (bottom_top : list Q) (i : nat) (t : field)
  : option field :=
  lev <- nth_error bottom_top i ;;
  lev_below <- py_index bottom_top (Z.of_nat i - 1) ;;
  t_p <- sel t lev ;;
  let lapse := lapse_bottom_up lev in
  if any_isnan t_p && Qlt_bool lev 50 then
    t_bellow <- sel t lev_below ;;
    Some (set_level t lev (fill_row lapse t_p t_bellow))
  else Some t.

Definition top_down (plevs_sorted : list Q) (t : field) : option field :=
  for_range (top_down_body plevs_sorted) 0 (length plevs_sorted) t.

Definition bottom_up (bottom_top : list Q) (t : field) : option field :=
  for_range (bottom_up_body bottom_top) 0 (length bottom_top) t.

(** [ext_temperature(temperature_IsobaricLevels_height, pressure_levels)]. *)
Definition ext_temperature (t_isob_z : field) (plevs : list Q)
  : option field :=
  let plevs_sorted := sort plevs in
  t1 <- top_down plevs_sorted t_isob_z ;;
  let bottom_top := rev plevs_sorted in
  bottom_up bottom_top t1.

(** ** [get_times_nml] and the level list of [main] *)

(** A [datetime]: its place on the time line, in seconds, and the two
    fields the source reads back from a parsed one. *)
Record datetime : Type := mkDatetime {
  timestamp : Q;
  day : Z;
  hour : Z
}.

(** A Python [dict] with string keys, in insertion order; [d[k]] raises
    [KeyError] on a key that is absent. *)
Fixpoint getitem {V : Type} (d : list (String.string * V))
         (k : String.string) : option V :=
  match d with
  | [] => None
  | (k', v) :: d' => if String.eqb k' k then Some v else getitem d' k
  end.

(** The namelist as [f90nml] reads it: groups of named values. *)
Definition namelist :=
  list (String.string * list (String.string * String.string)).

(** [datetime.timedelta(days=d, hours=h)], in seconds. *)
Definition timedelta (days hours : Z) : Q :=
  inject_Z (86400 * days + 3600 * hours).

(** [pd.date_range(start, end, periods=p)]: [p] points from [start] to
    [end], both included, evenly spaced. *)
Definition date_range (start finish : Q) (periods : nat) : list Q :=
  map (fun k => start + inject_Z (Z.of_nat k)
                        * ((finish - start)
                           / inject_Z (Z.of_nat periods - 1)))
      (seq 0 periods).

Section GetTimes.

(** [datetime.datetime.strptime], of the standard library; [None] is its
    [ValueError]. *)
Variable strptime : String.string -> String.string -> option datetime.

(** [get_times_nml(namelist, model_data)] (lines 147-161); of [model_data]
    only [len(model_data.Time)] is used. *)
Definition get_times_nml (nml : namelist) (n_times : nat)
  : option (list Q) :=
  nhyd_model <- getitem nml "nhyd_model"%string ;;
  start_date_str <- getitem nhyd_model "config_start_time"%string ;;
  nhyd_model' <- getitem nml "nhyd_model"%string ;;
  run_duration_str <- getitem nhyd_model' "config_run_duration"%string ;;
  start_date <- strptime start_date_str "%Y-%m-%d_%H:%M:%S"%string ;;
  run_duration <- strptime run_duration_str "%d_%H:%M:%S"%string ;;
  let finish_date :=
    timestamp start_date + timedelta (day run_duration) (hour run_duration) in
  Some (tl (date_range (timestamp start_date) finish_date (n_times + 1))).

End GetTimes.

(** The [k]-th time after the start, [k] of [n] steps into a run of
    length [d]. *)
Definition step_time (start d : Q) (n k : nat) : Q :=
  start + inject_Z (Z.of_nat k) * (d / inject_Z (Z.of_nat n)).

(** The levels [main] interpolates to (lines 180-183). *)
Definition main_plevs : list Q :=
  [10; 20; 30; 50; 70;
   100; 125; 150; 175; 200; 225; 250; 300; 350; 400;
   450; 500; 550; 600; 650; 700; 750; 775; 800; 825;
   850; 875; 900; 925; 950; 975; 1000].

(** The shape of an entry: its coordinates and the size of its grid. *)
Definition shape (r : row) : Q * Q * nat :=
  (level r, standard_height r, length (values r)).

(** ** Predicates on fields *)

(** No NaN anywhere. *)
Definition fully_populated (t : field) : bool :=
  forallb (fun r => negb (any_isnan r)) t.

(** Strictly ascending labels. *)
Fixpoint ascending (l : list Q) : bool :=
  match l with
  | [] => true
  | x :: l' =>
      match l' with
      | [] => true
      | y :: _ => Qlt_bool x y && ascending l'
      end
  end.

(** The [level] coordinate of the array is the sorted list of requested
    levels, stored in ascending pressure: the situation of [main], where
    the array comes from [interplevel(t, pressure, plevs)] with an ascending
    [plevs]. *)
Definition aligned (t : field) (plevs : list Q) : Prop :=
  map level t = sort plevs /\ ascending (map level t) = true.

(** The cell at entry [k] of the level dimension and grid position [j]. *)
Definition cell_at (t : field) (k j : nat) : option cell :=
  r <- nth_error t k ;; nth_error (values r) j.

Definition present_at (t : field) (k j : nat) : bool :=
  match cell_at t k j with
  | Some (Some _) => true
  | _ => false
  end.

Definition missing_at (t : field) (k j : nat) : bool :=
  match cell_at t k j with
  | Some None => true
  | _ => false
  end.

Definition row_width (t : field) (k : nat) : nat :=
  match nth_error t k with
  | Some r => length (values r)
  | None => O
  end.

(** All (entry, grid position) pairs of the array. *)
Definition positions (t : field) : list (nat * nat) :=
  flat_map (fun k => map (pair k) (seq 0 (row_width t k)))
           (seq 0 (length t)).

(** Gaps only inside the level range: every missing cell has the same grid
    position present at the entry stored before and at the entry stored
    after. *)
Definition gaps_inside (t : field) : bool :=
  forallb (fun p =>
             if missing_at t (fst p) (snd p)
             then (1 <=? fst p)%nat
                  && present_at t (fst p - 1) (snd p)
                  && present_at t (S (fst p)) (snd p)
             else true)
          (positions t).

(** No present cell holds the sentinel. *)
Definition no_sentinel (t : field) : bool :=
  forallb (fun r =>
             forallb (fun c => match c with
                               | Some v => negb (Qeq_bool v sentinel)
                               | None => true
                               end) (values r)) t.

(** No entry at exactly 50 hPa has a missing cell. *)
Definition no_gap_at_50 (t : field) : bool :=
  forallb (fun r => negb (Qeq_bool (level r) 50 && any_isnan r)) t.

(** [keeps u u']: every entry of [u] is an entry of [u'] at the same
    position, with the same coordinates, and every present cell that does
    not hold the sentinel has its value in [u']. *)
Definition keeps (u u' : field) : Prop :=
  forall k r, nth_error u k = Some r ->
    exists r', nth_error u' k = Some r' /\
               level r' = level r /\
               standard_height r' = standard_height r /\
               forall j v, nth_error (values r) j = Some (Some v) ->
                           ~ v == sentinel ->
                           nth_error (values r') j = Some (Some v).

(** Invariant of the first loop before iteration [i], on an array that
    started as [t]: entries above 50 hPa already visited are full, entries
    not yet visited and entries at 50 hPa or less are as in [t]. *)
Definition top_down_inv (t : field) (i : nat) (u : field) : Prop :=
  map level u = map level t /\ keeps t u /\
  forall k r, nth_error u k = Some r ->
    ((k < i)%nat -> 50 < level r -> any_isnan r = false) /\
    ((i <= k)%nat \/ level r <= 50 -> nth_error t k = Some r).

(** Invariant of the second loop before iteration [i]: entries above
    50 hPa are full, entries below 50 hPa already visited are full, the
    others at 50 hPa or less are as in [t]. *)
Definition bottom_up_inv (t : field) (i : nat) (u : field) : Prop :=
  map level u = map level t /\ keeps t u /\
  forall k r, nth_error u k = Some r ->
    (50 < level r -> any_isnan r = false) /\
    (level r < 50 -> (length t - i <= k)%nat -> any_isnan r = false) /\
    (level r <= 50 -> (k < length t - i)%nat \/ level r == 50 ->
     nth_error t k = Some r).

(** ** Example fields *)

(** Heights are those of the standard atmosphere, in km, rounded to the
    metre. *)

(** Four levels stored out of order, with a gap at 300 hPa. *)
Definition shuffled_field : field :=
  [ mkRow 1000 0.111 [Some 288];
    mkRow 100 15.797 [Some 210];
    mkRow 500 5.574 [Some 253];
    mkRow 300 9.164 [None] ].
Definition shuffled_levels : list Q := [1000; 100; 500; 300].

(** Scenario A of the specification, stored as it is listed, and the same
    data stored in ascending pressure. *)
Definition scenario_A : field :=
  [ mkRow 1000 0.111 [Some 290];
    mkRow 500 5.574 [None];
    mkRow 100 15.797 [None] ].
Definition scenario_A_levels : list Q := [1000; 500; 100].
Definition scenario_A_ascending : field :=
  [ mkRow 100 15.797 [None];
    mkRow 500 5.574 [None];
    mkRow 1000 0.111 [Some 290] ].

(** Gaps below the topography: 500 and 1000 hPa missing under a present
    100 hPa level; and the same array once the first loop has filled
    500 hPa. *)
Definition below_ground_field : field :=
  [ mkRow 100 15.797 [Some 220];
    mkRow 500 5.574 [None];
    mkRow 1000 0.111 [None] ].
Definition below_ground_levels : list Q := [100; 500; 1000].
Definition below_ground_after_500 : field :=
  set_level below_ground_field 500
    (fill_row (lapse_top_down 500) (mkRow 500 5.574 [None])
       (mkRow 100 15.797 [Some 220])).

(** A gap at 50 hPa between two present levels. *)
Definition gap_at_50_field : field :=
  [ mkRow 30 21.639 [Some 218];
    mkRow 50 19.323 [None];
    mkRow 70 17.669 [Some 215] ].
Definition gap_at_50_levels : list Q := [30; 50; 70].

(** A gap at the level the first loop visits first. *)
Definition first_gap_top_down : field :=
  [ mkRow 300 9.164 [None];
    mkRow 500 5.574 [Some 253];
    mkRow 1000 0.111 [Some 288] ].
Definition first_gap_top_down_levels : list Q := [300; 500; 1000].

(** A gap at the level the second loop visits first. *)
Definition first_gap_bottom_up : field :=
  [ mkRow 10 25.919 [Some 225];
    mkRow 20 23.324 [Some 220];
    mkRow 30 21.639 [None] ].
Definition first_gap_bottom_up_levels : list Q := [10; 20; 30].

(** A gap between two present levels, on an array that is not stored in
    ascending pressure. *)
Definition unsorted_gap_field : field :=
  [ mkRow 500 5.574 [None];
    mkRow 100 15.797 [Some 220];
    mkRow 1000 0.111 [Some 288] ].
Definition unsorted_gap_levels : list Q := [500; 100; 1000].

(** An ascending array of which only the two lower levels are requested,
    with a gap at 1000 hPa. *)
Definition unrequested_level_field : field :=
  [ mkRow 100 15.797 [Some 220];
    mkRow 500 5.574 [Some 253];
    mkRow 1000 0.111 [None] ].
Definition unrequested_level_levels : list Q := [500; 1000].

(** A present cell that holds -99999, next to a missing one. *)
Definition sentinel_field : field :=
  [ mkRow 100 15.797 [Some 220; Some 221];
    mkRow 500 5.574 [Some (-99999); None] ].
Definition sentinel_levels : list Q := [100; 500].

(** Two levels, nothing missing (levels 1000 and 10 hPa). *)
Definition full_field : field :=
  [ mkRow 10 25.919 [Some 225; Some 226];
    mkRow 1000 0.111 [Some 288; Some 289] ].
Definition full_levels : list Q := [1000; 10].

(** A gap above and a gap below 50 hPa, each between present levels. *)
Definition two_gaps_field : field :=
  [ mkRow 10 25.919 [Some 225];
    mkRow 20 23.324 [None];
    mkRow 30 21.639 [Some 218];
    mkRow 500 5.574 [None];
    mkRow 1000 0.111 [Some 288] ].
Definition two_gaps_levels : list Q := [10; 20; 30; 500; 1000].

(** A grid position (the second) that is missing at every level. *)
Definition empty_column_field : field :=
  [ mkRow 100 15.797 [Some 220; None];
    mkRow 500 5.574 [None; None];
    mkRow 1000 0.111 [Some 288; None] ].
Definition empty_column_levels : list Q := [100; 500; 1000].

(** Data that stop above 50 hPa: 10 to 50 hPa missing. *)
Definition model_top_field : field :=
  [ mkRow 10 25.919 [None];
    mkRow 20 23.324 [None];
    mkRow 30 21.639 [None];
    mkRow 50 19.323 [None];
    mkRow 70 17.669 [Some 215];
    mkRow 100 15.797 [Some 216] ].
Definition model_top_levels : list Q := [10; 20; 30; 50; 70; 100].

(** An array on the levels of [main]: two grid cells, the first missing
    from 10 to 50 hPa; the heights are a linear stand-in. *)
Definition main_example_field : field :=
  map (fun p => mkRow p ((1013 - p) / 40)
                  [if Qle_bool p 50 then None else Some 250; Some 260])
      main_plevs.

(** A namelist and a parser that knows its two strings: a start at the
    origin of the time line and a run of 2 days and 12 hours. *)
Definition example_namelist : namelist :=
  [ ("nhyd_model"%string,
     [ ("config_dt"%string, "30.0"%string);
       ("config_start_time"%string, "2022-12-21_00:00:00"%string);
       ("config_run_duration"%string, "02_12:00:00"%string) ]) ].

Definition example_strptime (s fmt : string) : option datetime :=
  if String.eqb s "2022-12-21_00:00:00" then Some (mkDatetime 0 21 0)
  else if String.eqb s "02_12:00:00" then Some (mkDatetime 0 2 12)
  else None.

(** * Basic facts *)

Lemma Qlt_bool_iff (x y : Q) : Qlt_bool x y = true <-> x < y.
Proof.
  unfold Qlt_bool. rewrite negb_true_iff. split.
  - intros H. apply Qnot_le_lt. intros L.
    apply Qle_bool_iff in L. congruence.
  - intros H. destruct (Qle_bool y x) eqn:E; [|reflexivity].
    apply Qle_bool_iff in E. exfalso. exact (Qlt_not_le _ _ H E).
Qed.

Lemma Qlt_bool_false (x y : Q) : Qlt_bool x y = false <-> y <= x.
Proof.
  unfold Qlt_bool. rewrite negb_false_iff. apply Qle_bool_iff.
Qed.

(** *** Selection by label and assignment by label *)

Lemma sel_Some (t : field) (lev : Q) (r : row) :
  sel t lev = Some r -> In r t /\ level r == lev.
Proof.
  induction t as [|a t IH]; simpl; [discriminate|].
  destruct (Qeq_bool (level a) lev) eqn:E.
  - intros H; inversion H; subst. split; [now left|].
    now apply Qeq_bool_iff.
  - intros H. destruct (IH H). split; [now right|assumption].
Qed.

Lemma set_level_levels (t : field) (lev : Q) (vs : list cell) :
  map level (set_level t lev vs) = map level t.
Proof.
  induction t as [|a t IH]; simpl; [reflexivity|].
  destruct (Qeq_bool (level a) lev); simpl; congruence.
Qed.

(** Assignment by label touches one entry, the one [sel] returns, and only
    its values. *)
Lemma set_level_nth (t : field) (lev : Q) (vs : list cell) (k : nat) (r : row) :
  nth_error t k = Some r ->
  exists r', nth_error (set_level t lev vs) k = Some r'
             /\ level r' = level r
             /\ standard_height r' = standard_height r
             /\ (values r' = values r \/ (sel t lev = Some r /\ values r' = vs)).
Proof.
  revert k. induction t as [|a t IH]; intros k H.
  - destruct k; discriminate.
  - simpl. destruct (Qeq_bool (level a) lev) eqn:E.
    + destruct k; simpl in *.
      * inversion H; subst. eexists; repeat split; eauto.
      * exists r; auto.
    + destruct k; simpl in *.
      * exists r; auto.
      * destruct (IH _ H) as [r' [H1 [H2 [H3 H4]]]].
        exists r'; repeat split; auto.
Qed.

(** *** Filling a row *)

Lemma fill_cells_length (d : Q) (cur seed : list cell) :
  length (fill_cells d cur seed) = length cur.
Proof.
  revert seed; induction cur as [|c cur IH]; intros seed; simpl; auto.
Qed.

Lemma fill_cells_nth (d : Q) (cur seed : list cell) (j : nat) (c : cell) :
  nth_error cur j = Some c ->
  nth_error (fill_cells d cur seed) j = Some (fill_cell d c (nth j seed None)).
Proof.
  revert seed j; induction cur as [|a cur IH]; intros seed j H.
  - destruct j; discriminate.
  - destruct j; simpl in *.
    + inversion H; subst. destruct seed; reflexivity.
    + rewrite (IH _ _ H). destruct seed; simpl; [destruct j|]; reflexivity.
Qed.

Lemma fill_cell_present (d v : Q) (s : cell) :
  ~ v == sentinel -> fill_cell d (Some v) s = Some v.
Proof.
  intros H. unfold fill_cell; simpl.
  destruct (Qeq_bool v sentinel) eqn:E; [|reflexivity].
  apply Qeq_bool_iff in E. contradiction.
Qed.

Lemma fill_cell_missing (d : Q) (s : cell) :
  fill_cell d None s = nan_add (nan_add (Some (sentinel + 99999)) s) (Some d).
Proof. reflexivity. Qed.

Lemma fill_cell_missing_value (d : Q) (s : cell) (v : Q) :
  fill_cell d None s = Some v -> exists x, s = Some x /\ v == x + d.
Proof.
  rewrite fill_cell_missing. destruct s as [x|]; simpl; [|discriminate].
  intros H; inversion H; subst. exists x; split; [reflexivity|].
  unfold sentinel. ring.
Qed.

(** *** Sorting *)

Lemma insert_sorted_In (x y : Q) (l : list Q) :
  In y (insert_sorted x l) <-> y = x \/ In y l.
Proof.
  induction l as [|a l IH]; simpl.
  - intuition.
  - destruct (Qle_bool x a); simpl; rewrite ?IH; intuition.
Qed.

Lemma sort_In (y : Q) (l : list Q) : In y (sort l) <-> In y l.
Proof.
  induction l as [|a l IH]; simpl; [tauto|].
  rewrite insert_sorted_In, IH. intuition.
Qed.

(** *** Python indexing *)

Lemma py_index_nonneg {A : Type} (l : list A) (i : nat) :
  py_index l (Z.of_nat i) = nth_error l i.
Proof.
  unfold py_index.
  destruct (Z.leb_spec 0 (Z.of_nat i)); [|lia]. now rewrite Nat2Z.id.
Qed.

(** [l[i-1]] for [i >= 1] is the element before position [i]. *)
Lemma py_index_pred {A : Type} (l : list A) (i : nat) :
  (1 <= i)%nat -> py_index l (Z.of_nat i - 1) = nth_error l (i - 1).
Proof.
  intros H. replace (Z.of_nat i - 1)%Z with (Z.of_nat (i - 1)) by lia.
  apply py_index_nonneg.
Qed.

(** [l[-1]] is the last element: the index wraps around. *)
Lemma py_index_wrap {A : Type} (l : list A) :
  py_index l (Z.of_nat 0 - 1) = nth_error l (length l - 1).
Proof.
  unfold py_index; simpl.
  destruct l as [|a l]; [reflexivity|].
  destruct (Z.leb_spec (- Z.of_nat (length (a :: l))) (-1)).
  - f_equal. simpl length. lia.
  - simpl length in *. lia.
Qed.

(** Inside a loop over [range(len(l))] the look-back [l[i-1]] never
    raises. *)
Lemma py_index_lookback {A : Type} (l : list A) (i : nat) :
  (i < length l)%nat -> py_index l (Z.of_nat i - 1) <> None.
Proof.
  intros H. destruct i as [|i].
  - rewrite py_index_wrap. apply nth_error_Some. lia.
  - rewrite py_index_pred by lia. apply nth_error_Some. lia.
Qed.

(** *** The loop *)

Lemma for_range_app (body : nat -> field -> option field) (n m i : nat)
      (t : field) :
  for_range body i (n + m) t =
  (t' <- for_range body i n t ;; for_range body (i + n) m t').
Proof.
  revert i t; induction n as [|n IH]; intros i t; simpl.
  - now rewrite Nat.add_0_r.
  - destruct (body i t) as [t1|]; simpl; [|reflexivity].
    rewrite IH. now rewrite Nat.add_succ_r.
Qed.

(** Loop invariants: [P k t] holds of the array before iteration [k]. *)
Lemma for_range_invariant (body : nat -> field -> option field)
      (P : nat -> field -> Prop) (n i : nat) (t t' : field) :
  P i t ->
  (forall k u u', (i <= k < i + n)%nat -> P k u -> body k u = Some u' ->
                  P (S k) u') ->
  for_range body i n t = Some t' ->
  P (i + n)%nat t'.
Proof.
  revert i t; induction n as [|n IH]; intros i t H0 Hstep H; simpl in H.
  - inversion H; subst. now rewrite Nat.add_0_r.
  - inv_bind H. rewrite Nat.add_succ_r.
    apply (IH (S i) x).
    + apply (Hstep i t x); [lia|assumption|assumption].
    + intros k u u' Hk. apply Hstep. lia.
    + exact H.
Qed.

(** An iteration that leaves the array alone at every index leaves it alone
    over the whole loop. *)
Lemma for_range_fixed (body : nat -> field -> option field) (n i : nat)
      (t : field) :
  (forall k, (i <= k < i + n)%nat -> body k t = Some t) ->
  for_range body i n t = Some t.
Proof.
  revert i; induction n as [|n IH]; intros i H; simpl; [reflexivity|].
  rewrite (H i) by lia. simpl. apply IH. intros k Hk. apply H. lia.
Qed.

(** * Fully populated fields *)

Lemma fully_populated_row (t : field) (r : row) :
  fully_populated t = true -> In r t -> any_isnan r = false.
Proof.
  unfold fully_populated. rewrite forallb_forall. intros H Hr.
  apply negb_true_iff. now apply H.
Qed.

Lemma top_down_body_full (s : list Q) (i : nat) (t : field) :
  fully_populated t = true ->
  (forall lev, In lev s -> sel t lev <> None) ->
  (i < length s)%nat ->
  top_down_body s i t = Some t.
Proof.
  intros Hfull Hsel Hi. unfold top_down_body.
  destruct (nth_error s i) as [lev|] eqn:E;
    [|apply nth_error_None in E; lia].
  simpl. destruct (sel t lev) as [r|] eqn:Er;
    [|exfalso; apply (Hsel lev); [eapply nth_error_In; eauto|assumption]].
  simpl. apply sel_Some in Er. destruct Er as [Hin _].
  now rewrite (fully_populated_row _ _ Hfull Hin).
Qed.

Lemma bottom_up_body_full (s : list Q) (i : nat) (t : field) :
  fully_populated t = true ->
  (forall lev, In lev s -> sel t lev <> None) ->
  (i < length s)%nat ->
  bottom_up_body s i t = Some t.
Proof.
  intros Hfull Hsel Hi. unfold bottom_up_body.
  destruct (nth_error s i) as [lev|] eqn:E;
    [|apply nth_error_None in E; lia].
  simpl. destruct (py_index s (Z.of_nat i - 1)) as [lb|] eqn:Eb;
    [|exfalso; exact (py_index_lookback s i Hi Eb)].
  simpl. destruct (sel t lev) as [r|] eqn:Er;
    [|exfalso; apply (Hsel lev); [eapply nth_error_In; eauto|assumption]].
  simpl. apply sel_Some in Er. destruct Er as [Hin _].
  now rewrite (fully_populated_row _ _ Hfull Hin).
Qed.

Lemma ext_temperature_full (t : field) (plevs : list Q) :
  fully_populated t = true ->
  (forall lev, In lev plevs -> sel t lev <> None) ->
  ext_temperature t plevs = Some t.
Proof.
  intros Hfull Hsel. unfold ext_temperature, top_down, bottom_up.
  assert (Hs : forall lev, In lev (sort plevs) -> sel t lev <> None)
    by (intros lev H; apply Hsel; now apply sort_In).
  rewrite for_range_fixed.
  - simpl. apply for_range_fixed. intros k Hk.
    apply bottom_up_body_full; [assumption| |lia].
    intros lev H. apply Hs. now apply in_rev.
  - intros k Hk. apply top_down_body_full; [assumption|assumption|lia].
Qed.

(** C8.  On a field without missing cells whose [level] coordinate carries
    every requested level, [ext_temperature] returns, and returns its input
    exactly; hence running it a second time on its own output returns the
    same field again. *)
Theorem ext_temperature_identity_on_full (t : field) (plevs : list Q) :
  fully_populated t = true ->
  (forall lev, In lev plevs -> sel t lev <> None) ->
  ext_temperature t plevs = Some t /\
  (t' <- ext_temperature t plevs ;; ext_temperature t' plevs) = Some t.
Proof.
  intros Hfull Hsel.
  pose proof (ext_temperature_full t plevs Hfull Hsel) as H.
  split; [exact H|]. rewrite H. simpl. exact H.
Qed.

(** * An empty list of levels *)

(** C9 (as the code has it).  With an empty list of pressure levels neither
    loop runs an iteration and the field is returned as it came. *)
Theorem ext_temperature_empty_levels (t : field) :
  ext_temperature t [] = Some t.
Proof. reflexivity. Qed.

(** * The gates and the lapse rates *)

Lemma row_eq (r r' : row) :
  level r' = level r -> standard_height r' = standard_height r ->
  values r' = values r -> r' = r.
Proof. destruct r, r'; simpl; intros; subst; reflexivity. Qed.

Lemma set_level_nth_other (t : field) (lev : Q) (vs : list cell) (k : nat)
      (r : row) :
  nth_error t k = Some r -> sel t lev <> Some r ->
  nth_error (set_level t lev vs) k = Some r.
Proof.
  intros H Hn. destruct (set_level_nth t lev vs k r H) as [r' [H1 [H2 [H3 H4]]]].
  destruct H4 as [H4|[H4 _]]; [|contradiction].
  now rewrite (row_eq r r' H2 H3 H4) in H1.
Qed.

Lemma lapse_top_down_bands (lev : Q) :
  (226.32 <= lev -> lapse_top_down lev = 6.5) /\
  (54.74 < lev /\ lev < 226.32 -> lapse_top_down lev = 0) /\
  (lev <= 54.74 -> lapse_top_down lev = -1).
Proof.
  unfold lapse_top_down. repeat split.
  - intros H. apply Qle_bool_iff in H. now rewrite H.
  - intros [H1 H2].
    destruct (Qle_bool 226.32 lev) eqn:E.
    + apply Qle_bool_iff in E. exfalso. exact (Qlt_not_le _ _ H2 E).
    + apply Qlt_bool_iff in H1, H2. now rewrite H1, H2.
  - intros H.
    destruct (Qle_bool 226.32 lev) eqn:E.
    + apply Qle_bool_iff in E. exfalso.
      assert (L : 226.32 <= 54.74) by (eapply Qle_trans; eauto).
      revert L. apply Qlt_not_le. reflexivity.
    + apply Qlt_bool_false in H. rewrite H. now rewrite andb_false_r.
Qed.

Lemma lapse_bottom_up_bands (lev : Q) :
  (8.68 <= lev -> lapse_bottom_up lev = -2.8) /\
  (lev < 8.68 -> lapse_bottom_up lev = 0).
Proof.
  unfold lapse_bottom_up. split.
  - intros H. apply Qle_bool_iff in H. now rewrite H.
  - intros H. destruct (Qle_bool 8.68 lev) eqn:E; [|reflexivity].
    apply Qle_bool_iff in E. exfalso. exact (Qlt_not_le _ _ H E).
Qed.

(** What one iteration of the first loop does. *)
Lemma top_down_body_cases (s : list Q) (i : nat) (t t' : field) :
  top_down_body s i t = Some t' ->
  exists lev t_p,
    nth_error s i = Some lev /\ sel t lev = Some t_p /\
    ((t' = t /\ (any_isnan t_p = false \/ lev <= 50)) \/
     (any_isnan t_p = true /\ 50 < lev /\
      exists t_above,
        isel t (Z.of_nat i - 1) = Some t_above /\
        t' = set_level t lev (fill_row (lapse_top_down lev) t_p t_above))).
Proof.
  unfold top_down_body. intros H.
  inv_bind H. rename x into lev. inv_bind H. rename x into t_p.
  exists lev, t_p. repeat split; try assumption.
  destruct (any_isnan t_p) eqn:En; simpl in H.
  - destruct (Qlt_bool 50 lev) eqn:El.
    + right. inv_bind H. inversion H; subst.
      repeat split; [now apply Qlt_bool_iff|]. exists x; auto.
    + left. inversion H; subst. split; [reflexivity|].
      right. now apply Qlt_bool_false.
  - left. inversion H; subst. auto.
Qed.

(** What one iteration of the second loop does. *)
Lemma bottom_up_body_cases (bt : list Q) (i : nat) (t t' : field) :
  bottom_up_body bt i t = Some t' ->
  exists lev lev_below t_p,
    nth_error bt i = Some lev /\
    py_index bt (Z.of_nat i - 1) = Some lev_below /\
    sel t lev = Some t_p /\
    ((t' = t /\ (any_isnan t_p = false \/ 50 <= lev)) \/
     (any_isnan t_p = true /\ lev < 50 /\
      exists t_bellow,
        sel t lev_below = Some t_bellow /\
        t' = set_level t lev (fill_row (lapse_bottom_up lev) t_p t_bellow))).
Proof.
  unfold bottom_up_body. intros H.
  inv_bind H. rename x into lev. inv_bind H. rename x into lev_below.
  inv_bind H. rename x into t_p.
  exists lev, lev_below, t_p. repeat split; try assumption.
  destruct (any_isnan t_p) eqn:En; simpl in H.
  - destruct (Qlt_bool lev 50) eqn:El.
    + right. inv_bind H. inversion H; subst.
      repeat split; [now apply Qlt_bool_iff|]. exists x; auto.
    + left. inversion H; subst. split; [reflexivity|].
      right. now apply Qlt_bool_false.
  - left. inversion H; subst. auto.
Qed.

(** Entries the gate of the first loop excludes survive an iteration. *)
Lemma top_down_body_frame (s : list Q) (i : nat) (t t' : field) (k : nat)
      (r : row) :
  top_down_body s i t = Some t' ->
  nth_error t k = Some r ->
  any_isnan r = false \/ level r <= 50 ->
  nth_error t' k = Some r.
Proof.
  intros H Hk Hc.
  destruct (top_down_body_cases _ _ _ _ H)
    as [lev [t_p [_ [Hsel [[-> _]|[Hn [Hl [ta [_ ->]]]]]]]]]; [assumption|].
  apply set_level_nth_other; [assumption|].
  rewrite Hsel. intros E; inversion E; subst.
  destruct Hc as [Hc|Hc]; [congruence|].
  apply sel_Some in Hsel. destruct Hsel as [_ Hq].
  rewrite Hq in Hc. exact (Qlt_not_le _ _ Hl Hc).
Qed.

Lemma bottom_up_body_frame (bt : list Q) (i : nat) (t t' : field) (k : nat)
      (r : row) :
  bottom_up_body bt i t = Some t' ->
  nth_error t k = Some r ->
  any_isnan r = false \/ 50 <= level r ->
  nth_error t' k = Some r.
Proof.
  intros H Hk Hc.
  destruct (bottom_up_body_cases _ _ _ _ H)
    as [lev [lb [t_p [_ [_ [Hsel [[-> _]|[Hn [Hl [ta [_ ->]]]]]]]]]]];
    [assumption|].
  apply set_level_nth_other; [assumption|].
  rewrite Hsel. intros E; inversion E; subst.
  destruct Hc as [Hc|Hc]; [congruence|].
  apply sel_Some in Hsel. destruct Hsel as [_ Hq].
  rewrite Hq in Hc. exact (Qlt_not_le _ _ Hl Hc).
Qed.

Lemma for_range_frame (body : nat -> field -> option field)
      (keep : row -> Prop) (n : nat) (t t' : field) :
  (forall i u u' k r, body i u = Some u' -> nth_error u k = Some r ->
                      keep r -> nth_error u' k = Some r) ->
  for_range body 0 n t = Some t' ->
  forall k r, nth_error t k = Some r -> keep r -> nth_error t' k = Some r.
Proof.
  intros Hbody H.
  apply (for_range_invariant body
           (fun _ u => forall k r, nth_error t k = Some r -> keep r ->
                                   nth_error u k = Some r) n 0 t t');
    [auto| |exact H].
  intros i u u' _ IH Hb k r Hk Hr. eapply Hbody; eauto.
Qed.

(** C2.  First loop.  An entry of the array is rewritten only when it has
    a NaN and its pressure is strictly above 50 hPa: every entry without a
    NaN, and every entry at 50 hPa or less, comes out of the whole sweep as
    it went in; an iteration either returns the array untouched (no NaN at
    the level, or level at most 50 hPa) or assigns to the level the fill
    computed with the lapse rate of that level's own pressure; that rate
    is 6.5 from 226.32 hPa on, 0 strictly between 54.74 and 226.32 hPa and
    -1 otherwise. *)
Theorem top_down_gate_and_lapse (s : list Q) (t t' : field) (i : nat)
        (u u' : field) :
  top_down s t = Some t' ->
  top_down_body s i u = Some u' ->
  (forall k r, nth_error t k = Some r ->
               any_isnan r = false \/ level r <= 50 ->
               nth_error t' k = Some r) /\
  (exists lev t_p,
      nth_error s i = Some lev /\ sel u lev = Some t_p /\
      ((u' = u /\ (any_isnan t_p = false \/ lev <= 50)) \/
       (any_isnan t_p = true /\ 50 < lev /\
        exists t_above,
          isel u (Z.of_nat i - 1) = Some t_above /\
          u' = set_level u lev
                 (fill_row (lapse_top_down lev) t_p t_above)))) /\
  (forall lev,
      (226.32 <= lev -> lapse_top_down lev = 6.5) /\
      (54.74 < lev /\ lev < 226.32 -> lapse_top_down lev = 0) /\
      (lev <= 54.74 -> lapse_top_down lev = -1)).
Proof.
  intros Hpass Hstep. split; [|split].
  - apply (for_range_frame (top_down_body s)
             (fun r => any_isnan r = false \/ level r <= 50)
             (length s) t t'); [|exact Hpass].
    intros j v v' k r. apply top_down_body_frame.
  - exact (top_down_body_cases s i u u' Hstep).
  - exact lapse_top_down_bands.
Qed.

(** C3.  Second loop.  An entry of the array is rewritten only when it has
    a NaN and its pressure is strictly below 50 hPa: every entry without a
    NaN, and every entry at 50 hPa or more, comes out of the whole sweep as
    it went in; an iteration either returns the array untouched or assigns
    to the level the fill computed with the lapse rate of that level's own
    pressure; that rate is -2.8 from 8.68 hPa on and 0 below. *)
Theorem bottom_up_gate_and_lapse (bt : list Q) (t t' : field) (i : nat)
        (u u' : field) :
  bottom_up bt t = Some t' ->
  bottom_up_body bt i u = Some u' ->
  (forall k r, nth_error t k = Some r ->
               any_isnan r = false \/ 50 <= level r ->
               nth_error t' k = Some r) /\
  (exists lev lev_below t_p,
      nth_error bt i = Some lev /\
      py_index bt (Z.of_nat i - 1) = Some lev_below /\
      sel u lev = Some t_p /\
      ((u' = u /\ (any_isnan t_p = false \/ 50 <= lev)) \/
       (any_isnan t_p = true /\ lev < 50 /\
        exists t_bellow,
          sel u lev_below = Some t_bellow /\
          u' = set_level u lev
                 (fill_row (lapse_bottom_up lev) t_p t_bellow)))) /\
  (forall lev,
      (8.68 <= lev -> lapse_bottom_up lev = -2.8) /\
      (lev < 8.68 -> lapse_bottom_up lev = 0)).
Proof.
  intros Hpass Hstep. split; [|split].
  - apply (for_range_frame (bottom_up_body bt)
             (fun r => any_isnan r = false \/ 50 <= level r)
             (length bt) t t'); [|exact Hpass].
    intros j v v' k r. apply bottom_up_body_frame.
  - exact (bottom_up_body_cases bt i u u' Hstep).
  - exact lapse_bottom_up_bands.
Qed.

(** * The value written into a missing cell *)

Lemma nth_Some_nth_error (l : list cell) (j : nat) (x : Q) :
  nth j l None = Some x -> nth_error l j = Some (Some x).
Proof.
  revert j; induction l as [|a l IH]; intros j H.
  - destruct j; discriminate.
  - destruct j; simpl in *; [now subst|auto].
Qed.

Lemma nth_error_nth_Some (l : list cell) (j : nat) (c : cell) :
  nth_error l j = Some c -> nth j l None = c.
Proof.
  revert j; induction l as [|a l IH]; intros j H.
  - destruct j; discriminate.
  - destruct j; simpl in *; [now inversion H|auto].
Qed.

(** A missing cell of the row that [fill_row] rewrites comes out present
    exactly when the seed is present there, with the seed's value plus
    lapse rate times height difference. *)
Lemma fill_row_missing (lapse : Q) (cur seed : row) (j : nat) (v : Q) :
  nth_error (values cur) j = Some None ->
  nth_error (fill_row lapse cur seed) j = Some (Some v) ->
  exists x, nth_error (values seed) j = Some (Some x) /\
            v == x + lapse * (standard_height seed - standard_height cur).
Proof.
  intros Hc H. unfold fill_row in H.
  rewrite (fill_cells_nth _ _ _ _ _ Hc) in H. inversion H as [H'].
  destruct (fill_cell_missing_value _ _ _ H') as [x [Hx Hv]].
  exists x. split; [now apply nth_Some_nth_error|].
  rewrite Hv. unfold dtemp_of. ring.
Qed.

Lemma fill_row_missing_seeded (lapse : Q) (cur seed : row) (j : nat) (x : Q) :
  nth_error (values cur) j = Some None ->
  nth_error (values seed) j = Some (Some x) ->
  exists v, nth_error (fill_row lapse cur seed) j = Some (Some v) /\
            v == x + lapse * (standard_height seed - standard_height cur).
Proof.
  intros Hc Hs. unfold fill_row.
  rewrite (fill_cells_nth _ _ _ _ _ Hc).
  rewrite (nth_error_nth_Some _ _ _ Hs).
  rewrite fill_cell_missing. simpl. eexists. split; [reflexivity|].
  unfold dtemp_of, sentinel. ring.
Qed.

(** A cell of entry [k] that an assignment by label turns from missing to
    present belongs to the row the assignment addressed. *)
Lemma set_level_filled (t : field) (lev : Q) (vs : list cell) (k j : nat)
      (r r' : row) (v : Q) :
  nth_error t k = Some r ->
  nth_error (values r) j = Some None ->
  nth_error (set_level t lev vs) k = Some r' ->
  nth_error (values r') j = Some (Some v) ->
  sel t lev = Some r /\ nth_error vs j = Some (Some v).
Proof.
  intros Hk Hj Hk' Hj'.
  destruct (set_level_nth t lev vs k r Hk) as [r1 [H1 [_ [_ H4]]]].
  rewrite Hk' in H1. inversion H1; subst r1.
  destruct H4 as [H4|[H4 H5]].
  - rewrite H4 in Hj'. congruence.
  - split; [assumption|]. now rewrite <- H5.
Qed.

Lemma top_down_body_filled (s : list Q) (i : nat) (u u' : field) (k j : nat)
      (r r' : row) (v : Q) :
  top_down_body s i u = Some u' ->
  nth_error u k = Some r -> nth_error (values r) j = Some None ->
  nth_error u' k = Some r' -> nth_error (values r') j = Some (Some v) ->
  exists lev seed x,
    nth_error s i = Some lev /\ sel u lev = Some r /\
    isel u (Z.of_nat i - 1) = Some seed /\
    nth_error (values seed) j = Some (Some x) /\
    v == x + lapse_top_down lev * (standard_height seed - standard_height r).
Proof.
  intros H Hk Hj Hk' Hj'.
  destruct (top_down_body_cases _ _ _ _ H)
    as [lev [t_p [Hlev [Hsel [[-> _]|[_ [_ [seed [Hseed ->]]]]]]]]].
  - rewrite Hk in Hk'. inversion Hk'; subst. congruence.
  - destruct (set_level_filled _ _ _ _ _ _ _ _ Hk Hj Hk' Hj') as [Hr Hv].
    rewrite Hsel in Hr. inversion Hr; subst t_p.
    destruct (fill_row_missing _ _ _ _ _ Hj Hv) as [x [Hx Hq]].
    exists lev, seed, x. auto.
Qed.

Lemma bottom_up_body_filled (bt : list Q) (i : nat) (u u' : field) (k j : nat)
      (r r' : row) (v : Q) :
  bottom_up_body bt i u = Some u' ->
  nth_error u k = Some r -> nth_error (values r) j = Some None ->
  nth_error u' k = Some r' -> nth_error (values r') j = Some (Some v) ->
  exists lev lev_below seed x,
    nth_error bt i = Some lev /\ sel u lev = Some r /\
    py_index bt (Z.of_nat i - 1) = Some lev_below /\
    sel u lev_below = Some seed /\
    nth_error (values seed) j = Some (Some x) /\
    v == x + lapse_bottom_up lev * (standard_height seed - standard_height r).
Proof.
  intros H Hk Hj Hk' Hj'.
  destruct (bottom_up_body_cases _ _ _ _ H)
    as [lev [lb [t_p [Hlev [Hlb [Hsel [[-> _]|[_ [_ [seed [Hseed ->]]]]]]]]]]].
  - rewrite Hk in Hk'. inversion Hk'; subst. congruence.
  - destruct (set_level_filled _ _ _ _ _ _ _ _ Hk Hj Hk' Hj') as [Hr Hv].
    rewrite Hsel in Hr. inversion Hr; subst t_p.
    destruct (fill_row_missing _ _ _ _ _ Hj Hv) as [x [Hx Hq]].
    exists lev, lb, seed, x. repeat split; auto.
Qed.

(** *** Running an iteration *)

Lemma top_down_body_skip (s : list Q) (i : nat) (t : field) (lev : Q)
      (r : row) :
  nth_error s i = Some lev -> sel t lev = Some r ->
  any_isnan r && Qlt_bool 50 lev = false ->
  top_down_body s i t = Some t.
Proof.
  intros H1 H2 H3. unfold top_down_body. rewrite H1; simpl.
  rewrite H2; simpl. now rewrite H3.
Qed.

Lemma top_down_body_fill (s : list Q) (i : nat) (t : field) (lev : Q)
      (r seed : row) :
  nth_error s i = Some lev -> sel t lev = Some r ->
  any_isnan r = true -> 50 < lev ->
  isel t (Z.of_nat i - 1) = Some seed ->
  top_down_body s i t =
  Some (set_level t lev (fill_row (lapse_top_down lev) r seed)).
Proof.
  intros H1 H2 H3 H4 H5. unfold top_down_body. rewrite H1; simpl.
  rewrite H2; simpl. apply Qlt_bool_iff in H4. rewrite H3, H4; simpl.
  now rewrite H5.
Qed.

Lemma bottom_up_body_skip (bt : list Q) (i : nat) (t : field) (lev lb : Q)
      (r : row) :
  nth_error bt i = Some lev -> py_index bt (Z.of_nat i - 1) = Some lb ->
  sel t lev = Some r ->
  any_isnan r && Qlt_bool lev 50 = false ->
  bottom_up_body bt i t = Some t.
Proof.
  intros H1 Hb H2 H3. unfold bottom_up_body. rewrite H1; simpl.
  rewrite Hb; simpl. rewrite H2; simpl. now rewrite H3.
Qed.

Lemma bottom_up_body_fill (bt : list Q) (i : nat) (t : field) (lev lb : Q)
      (r seed : row) :
  nth_error bt i = Some lev -> py_index bt (Z.of_nat i - 1) = Some lb ->
  sel t lev = Some r ->
  any_isnan r = true -> lev < 50 ->
  sel t lb = Some seed ->
  bottom_up_body bt i t =
  Some (set_level t lev (fill_row (lapse_bottom_up lev) r seed)).
Proof.
  intros H1 Hb H2 H3 H4 H5. unfold bottom_up_body. rewrite H1; simpl.
  rewrite Hb; simpl. rewrite H2; simpl.
  apply Qlt_bool_iff in H4. rewrite H3, H4; simpl. now rewrite H5.
Qed.

Lemma any_isnan_missing (r : row) (j : nat) :
  nth_error (values r) j = Some None -> any_isnan r = true.
Proof.
  intros H. unfold any_isnan. apply existsb_exists.
  exists None. split; [eapply nth_error_In; eauto|reflexivity].
Qed.

Lemma Qeq_bool_refl (x : Q) : Qeq_bool x x = true.
Proof. apply Qeq_bool_iff. reflexivity. Qed.

Lemma Qeq_bool_lt (x y : Q) : x < y -> Qeq_bool x y = false.
Proof.
  intros H. destruct (Qeq_bool x y) eqn:E; [|reflexivity].
  apply Qeq_bool_iff in E. rewrite E in H. exfalso. exact (Qlt_irrefl _ H).
Qed.

(** *** One missing level between two present ones *)

Section ThreeLevels.

Variables l0 l1 l2 h0 h1 h2 : Q.
Variables vs0 vs1 vs2 : list cell.
Variable plevs : list Q.
Variable j : nat.
Variables x0 x2 : Q.

Let R0 := mkRow l0 h0 vs0.
Let R1 := mkRow l1 h1 vs1.
Let R2 := mkRow l2 h2 vs2.
Let t := [R0; R1; R2].

Hypothesis l01 : l0 < l1.
Hypothesis l12 : l1 < l2.
Hypothesis plevs_sorted : sort plevs = [l0; l1; l2].
Hypothesis full0 : any_isnan R0 = false.
Hypothesis full2 : any_isnan R2 = false.
Hypothesis gap : nth_error vs1 j = Some None.
Hypothesis above : nth_error vs0 j = Some (Some x0).
Hypothesis below : nth_error vs2 j = Some (Some x2).

Let l02 : l0 < l2 := Qlt_trans _ _ _ l01 l12.

Lemma three_levels_sel0 (w : list cell) :
  sel [R0; mkRow l1 h1 w; R2] l0 = Some R0.
Proof. simpl. now rewrite Qeq_bool_refl. Qed.

Lemma three_levels_sel1 (w : list cell) :
  sel [R0; mkRow l1 h1 w; R2] l1 = Some (mkRow l1 h1 w).
Proof.
  simpl. rewrite (Qeq_bool_lt _ _ l01). now rewrite Qeq_bool_refl.
Qed.

Lemma three_levels_sel2 (w : list cell) :
  sel [R0; mkRow l1 h1 w; R2] l2 = Some R2.
Proof.
  simpl. rewrite (Qeq_bool_lt _ _ l02), (Qeq_bool_lt _ _ l12).
  now rewrite Qeq_bool_refl.
Qed.

Lemma three_levels_set1 (w : list cell) :
  set_level t l1 w = [R0; mkRow l1 h1 w; R2].
Proof.
  simpl. rewrite (Qeq_bool_lt _ _ l01). now rewrite Qeq_bool_refl.
Qed.

Lemma three_levels_top_down_skip (w : list cell) :
  any_isnan (mkRow l1 h1 w) && Qlt_bool 50 l1 = false ->
  top_down [l0; l1; l2] [R0; mkRow l1 h1 w; R2]
  = Some [R0; mkRow l1 h1 w; R2].
Proof.
  intros Hg. unfold top_down. cbn [length for_range].
  rewrite (top_down_body_skip [l0; l1; l2] 0 _ l0 R0 eq_refl
             (three_levels_sel0 w)) by (now rewrite full0).
  cbn [bind].
  rewrite (top_down_body_skip [l0; l1; l2] 1 _ l1 _ eq_refl
             (three_levels_sel1 w) Hg).
  cbn [bind].
  rewrite (top_down_body_skip [l0; l1; l2] 2 _ l2 R2 eq_refl
             (three_levels_sel2 w)) by (now rewrite full2).
  reflexivity.
Qed.

Lemma three_levels_bottom_up_skip (w : list cell) :
  any_isnan (mkRow l1 h1 w) && Qlt_bool l1 50 = false ->
  bottom_up [l2; l1; l0] [R0; mkRow l1 h1 w; R2]
  = Some [R0; mkRow l1 h1 w; R2].
Proof.
  intros Hg. unfold bottom_up. cbn [length for_range].
  rewrite (bottom_up_body_skip [l2; l1; l0] 0 _ l2 l0 R2 eq_refl eq_refl
             (three_levels_sel2 w)) by (now rewrite full2).
  cbn [bind].
  rewrite (bottom_up_body_skip [l2; l1; l0] 1 _ l1 l2 _ eq_refl eq_refl
             (three_levels_sel1 w) Hg).
  cbn [bind].
  rewrite (bottom_up_body_skip [l2; l1; l0] 2 _ l0 l1 R0 eq_refl eq_refl
             (three_levels_sel0 w)) by (now rewrite full0).
  reflexivity.
Qed.

Lemma three_levels_top_down_fill :
  50 < l1 ->
  top_down [l0; l1; l2] t
  = Some [R0; mkRow l1 h1 (fill_row (lapse_top_down l1) R1 R0); R2].
Proof.
  intros H50. unfold top_down. cbn [length for_range].
  rewrite (top_down_body_skip [l0; l1; l2] 0 t l0 R0 eq_refl
             (three_levels_sel0 vs1)) by (now rewrite full0).
  cbn [bind].
  rewrite (top_down_body_fill [l0; l1; l2] 1 t l1 R1 R0 eq_refl
             (three_levels_sel1 vs1) (any_isnan_missing R1 j gap) H50
             eq_refl).
  cbn [bind]. rewrite three_levels_set1.
  rewrite (top_down_body_skip [l0; l1; l2] 2 _ l2 R2 eq_refl
             (three_levels_sel2 _)) by (now rewrite full2).
  reflexivity.
Qed.

Lemma three_levels_bottom_up_fill :
  l1 < 50 ->
  bottom_up [l2; l1; l0] t
  = Some [R0; mkRow l1 h1 (fill_row (lapse_bottom_up l1) R1 R2); R2].
Proof.
  intros H50. unfold bottom_up. cbn [length for_range].
  rewrite (bottom_up_body_skip [l2; l1; l0] 0 t l2 l0 R2 eq_refl eq_refl
             (three_levels_sel2 vs1)) by (now rewrite full2).
  cbn [bind].
  rewrite (bottom_up_body_fill [l2; l1; l0] 1 t l1 l2 R1 R2 eq_refl eq_refl
             (three_levels_sel1 vs1) (any_isnan_missing R1 j gap) H50
             (three_levels_sel2 vs1)).
  cbn [bind]. rewrite three_levels_set1.
  rewrite (bottom_up_body_skip [l2; l1; l0] 2 _ l0 l1 R0 eq_refl eq_refl
             (three_levels_sel0 _)) by (now rewrite full0).
  reflexivity.
Qed.

(** The gap lies above 50 hPa: the first loop fills it from the entry
    stored before it, the second loop passes. *)
Lemma three_levels_top_down :
  50 < l1 ->
  exists t' v,
    ext_temperature t plevs = Some t' /\
    cell_at t' 1 j = Some (Some v) /\
    v == x0 + lapse_top_down l1 * (h0 - h1).
Proof.
  intros H50.
  destruct (fill_row_missing_seeded (lapse_top_down l1) R1 R0 j x0 gap above)
    as [v [Hv Hq]].
  exists [R0; mkRow l1 h1 (fill_row (lapse_top_down l1) R1 R0); R2], v.
  split; [|split; [exact Hv|exact Hq]].
  unfold ext_temperature. rewrite plevs_sorted.
  rewrite (three_levels_top_down_fill H50). cbn [bind rev app].
  apply three_levels_bottom_up_skip.
  apply andb_false_iff. right. apply Qlt_bool_false.
  now apply Qlt_le_weak.
Qed.

(** The gap lies below 50 hPa: the first loop passes, the second fills
    the gap from the level of the iteration before, the next higher
    pressure. *)
Lemma three_levels_bottom_up :
  l1 < 50 ->
  exists t' v,
    ext_temperature t plevs = Some t' /\
    cell_at t' 1 j = Some (Some v) /\
    v == x2 + lapse_bottom_up l1 * (h2 - h1).
Proof.
  intros H50.
  destruct (fill_row_missing_seeded (lapse_bottom_up l1) R1 R2 j x2 gap below)
    as [v [Hv Hq]].
  exists [R0; mkRow l1 h1 (fill_row (lapse_bottom_up l1) R1 R2); R2], v.
  split; [|split; [exact Hv|exact Hq]].
  unfold ext_temperature. rewrite plevs_sorted.
  unfold t, R1. rewrite three_levels_top_down_skip.
  - cbn [bind rev app]. now apply three_levels_bottom_up_fill.
  - apply andb_false_iff. right. apply Qlt_bool_false.
    now apply Qlt_le_weak.
Qed.

End ThreeLevels.

(** * Positional look-back against labels *)

Lemma top_down_body_levels (s : list Q) (i : nat) (u u' : field) :
  top_down_body s i u = Some u' -> map level u' = map level u.
Proof.
  intros H.
  destruct (top_down_body_cases _ _ _ _ H)
    as [lev [t_p [_ [_ [[-> _]|[_ [_ [ta [_ ->]]]]]]]]];
    [reflexivity|apply set_level_levels].
Qed.

Lemma for_range_levels (body : nat -> field -> option field) (n i : nat)
      (t t' : field) :
  (forall k u u', body k u = Some u' -> map level u' = map level u) ->
  for_range body i n t = Some t' -> map level t' = map level t.
Proof.
  intros Hb H.
  apply (for_range_invariant body (fun _ u => map level u = map level t)
           n i t t'); [reflexivity| |exact H].
  intros k u u' _ IH Hk. rewrite <- IH. eapply Hb; eauto.
Qed.

Lemma ascending_tail (x : Q) (l : list Q) :
  ascending (x :: l) = true -> ascending l = true.
Proof.
  simpl. destruct l as [|y l]; [reflexivity|].
  intros H. apply andb_true_iff in H. tauto.
Qed.

Lemma ascending_head_lt (x y : Q) (l : list Q) :
  ascending (x :: l) = true -> In y l -> x < y.
Proof.
  revert x; induction l as [|a l IH]; intros x H Hy; [destruct Hy|].
  simpl in H. apply andb_true_iff in H. destruct H as [Hxa Ha].
  apply Qlt_bool_iff in Hxa. destruct Hy as [->|Hy]; [assumption|].
  eapply Qlt_trans; [exact Hxa|]. now apply IH.
Qed.

(** In a strictly ascending list, positions and values are ordered alike. *)
Lemma ascending_nth_lt (l : list Q) (a b : nat) (x y : Q) :
  ascending l = true -> (a < b)%nat ->
  nth_error l a = Some x -> nth_error l b = Some y -> x < y.
Proof.
  revert a b; induction l as [|c l IH]; intros a b H Hab Ha Hb.
  - destruct a; discriminate.
  - destruct b as [|b]; [lia|]. destruct a as [|a]; simpl in *.
    + inversion Ha; subst. eapply ascending_head_lt; eauto.
      eapply nth_error_In; eauto.
    + apply (IH a b); [eapply ascending_tail; eauto|lia|assumption|assumption].
Qed.

(** With strictly ascending labels, selection by label finds the entry at
    the position that carries the label. *)
Lemma sel_nth_ascending (t : field) (k : nat) (r : row) :
  ascending (map level t) = true -> nth_error t k = Some r ->
  sel t (level r) = Some r.
Proof.
  revert k; induction t as [|a t IH]; intros k H Hk.
  - destruct k; discriminate.
  - destruct k as [|k]; simpl in Hk.
    + inversion Hk; subst. simpl. now rewrite Qeq_bool_refl.
    + simpl. rewrite Qeq_bool_lt.
      * apply (IH k); [eapply ascending_tail; eauto|assumption].
      * apply (ascending_head_lt _ _ (map level t) H).
        apply in_map. eapply nth_error_In; eauto.
Qed.

(** The array before iteration [i] of the first loop has the levels it
    started with. *)
Lemma top_down_prefix_levels (s : list Q) (i : nat) (t u : field) :
  for_range (top_down_body s) 0 i t = Some u -> map level u = map level t.
Proof.
  apply for_range_levels. intros k v v'. apply top_down_body_levels.
Qed.

(** The seed of iteration [i >= 1] of the first loop on an aligned array. *)
Lemma top_down_seed_aligned (t : field) (plevs : list Q) (i : nat) (u : field)
      (lev : Q) :
  aligned t plevs -> (1 <= i)%nat ->
  for_range (top_down_body (sort plevs)) 0 i t = Some u ->
  nth_error (sort plevs) i = Some lev ->
  exists seed,
    isel u (Z.of_nat i - 1) = Some seed /\
    nth_error (sort plevs) (i - 1) = Some (level seed) /\
    sel u (level seed) = Some seed /\
    level seed < lev /\
    (forall r, In r u -> ~ (level seed < level r /\ level r < lev)).
Proof.
  intros [Hal Hasc] Hi Hu Hlev.
  pose proof (top_down_prefix_levels _ _ _ _ Hu) as Hlv.
  assert (Hus : map level u = sort plevs) by congruence.
  assert (Hua : ascending (map level u) = true) by congruence.
  assert (Hlen : (i < length u)%nat).
  { rewrite <- (length_map level), Hus. apply nth_error_Some. congruence. }
  destruct (nth_error u (i - 1)) as [seed|] eqn:Es;
    [|apply nth_error_None in Es; lia].
  assert (Hsl : nth_error (sort plevs) (i - 1) = Some (level seed))
    by (rewrite <- Hus; now apply map_nth_error).
  exists seed. repeat split.
  - unfold isel. now rewrite py_index_pred.
  - exact Hsl.
  - now apply (sel_nth_ascending u (i - 1)).
  - rewrite <- Hus in Hsl, Hlev.
    apply (ascending_nth_lt (map level u) (i - 1) i); auto. lia.
  - intros r Hr [H1 H2]. apply In_nth_error in Hr. destruct Hr as [k Hk].
    pose proof (map_nth_error level _ _ Hk) as Hkl.
    rewrite <- Hus in Hsl, Hlev.
    destruct (Nat.lt_trichotomy k (i - 1)) as [L|[L|L]].
    + pose proof (ascending_nth_lt _ _ _ _ _ Hua L Hkl Hsl) as C.
      exact (Qlt_irrefl _ (Qlt_trans _ _ _ C H1)).
    + subst k. rewrite Hsl in Hkl. inversion Hkl as [E].
      rewrite E in H1. exact (Qlt_irrefl _ H1).
    + destruct (Nat.eq_dec k i) as [->|N].
      * rewrite Hlev in Hkl. inversion Hkl as [E].
        rewrite E in H2. exact (Qlt_irrefl _ H2).
      * assert (L' : (i < k)%nat) by lia.
        pose proof (ascending_nth_lt _ _ _ _ _ Hua L' Hlev Hkl) as C.
        exact (Qlt_irrefl _ (Qlt_trans _ _ _ C H2)).
Qed.

Lemma for_range_last (body : nat -> field -> option field) (n : nat)
      (t u : field) :
  for_range body 0 (S n) t = Some u ->
  exists u0, for_range body 0 n t = Some u0 /\ body n u0 = Some u.
Proof.
  replace (S n) with (n + 1)%nat by lia. rewrite for_range_app.
  intros H. inv_bind H. exists x. split; [reflexivity|].
  simpl in H. destruct (body n x); simpl in H; [assumption|discriminate].
Qed.

(** C5 (as the code has it).  Within the first loop on an aligned array,
    the array before iteration [i >= 1] is the array as iteration [i-1]
    left it, and the seed that iteration [i] reads by position is the entry
    of the level of iteration [i-1] in that array, values filled earlier in
    the sweep included; the iteration returns the array untouched or
    assigns the fill computed from that seed.  The sweep runs from low to
    high pressure: for levels 100, 500, 1000 hPa with values 220 K, missing,
    missing, the 500 hPa level is filled from 100 hPa with lapse rate 6.5,
    and then the 1000 hPa level from the newly filled 500 hPa level, again
    with 6.5, the rate of its own band. *)
Theorem top_down_propagates_cumulatively :
  (forall t plevs i u u',
      aligned t plevs -> (1 <= i)%nat ->
      for_range (top_down_body (sort plevs)) 0 i t = Some u ->
      top_down_body (sort plevs) i u = Some u' ->
      exists u0 prev lev t_p seed,
        for_range (top_down_body (sort plevs)) 0 (i - 1) t = Some u0 /\
        top_down_body (sort plevs) (i - 1) u0 = Some u /\
        nth_error (sort plevs) (i - 1) = Some prev /\
        nth_error (sort plevs) i = Some lev /\
        sel u lev = Some t_p /\
        isel u (Z.of_nat i - 1) = Some seed /\
        sel u prev = Some seed /\
        (u' = u \/
         u' = set_level u lev (fill_row (lapse_top_down lev) t_p seed))) /\
  (exists t' v500 v1000,
      top_down (sort below_ground_levels) below_ground_field = Some t' /\
      ext_temperature below_ground_field below_ground_levels = Some t' /\
      cell_at t' 0 0 = Some (Some 220) /\
      cell_at t' 1 0 = Some (Some v500) /\
      cell_at t' 2 0 = Some (Some v1000) /\
      v500 == 220 + 6.5 * (15.797 - 5.574) /\
      v1000 == v500 + 6.5 * (5.574 - 0.111)).
Proof.
  split.
  - intros t plevs i u u' Hal Hi Hu Hstep.
    destruct i as [|i]; [lia|].
    destruct (for_range_last _ _ _ _ Hu) as [u0 [Hu0 Hprev]].
    destruct (top_down_body_cases _ _ _ _ Hstep)
      as [lev [t_p [Hlev [Hsel Hcases]]]].
    destruct (top_down_seed_aligned t plevs (S i) u lev Hal Hi Hu Hlev)
      as [seed [Hs1 [Hs2 [Hs3 _]]]].
    replace (S i - 1)%nat with i in * by lia.
    exists u0, (level seed), lev, t_p, seed. repeat split; try assumption.
    destruct Hcases as [[-> _]|[_ [_ [ta [Hta ->]]]]]; [now left|right].
    rewrite Hs1 in Hta. now inversion Hta.
  - eexists. eexists. eexists.
    split; [vm_compute; reflexivity|].
    split; [vm_compute; reflexivity|].
    split; [reflexivity|].
    split; [reflexivity|].
    split; [reflexivity|].
    split; reflexivity.
Qed.

(** * Present cells *)

Lemma keeps_refl (u : field) : keeps u u.
Proof. intros k r H. exists r. auto. Qed.

Lemma keeps_trans (u v w : field) : keeps u v -> keeps v w -> keeps u w.
Proof.
  intros H1 H2 k r Hk.
  destruct (H1 k r Hk) as [r1 [A1 [B1 [C1 D1]]]].
  destruct (H2 k r1 A1) as [r2 [A2 [B2 [C2 D2]]]].
  exists r2. repeat split; try congruence.
  intros j x Hj Hx. apply D2; [|assumption]. now apply D1.
Qed.

Lemma set_level_fill_keeps (u : field) (lev lapse : Q) (t_p seed : row) :
  sel u lev = Some t_p ->
  keeps u (set_level u lev (fill_row lapse t_p seed)).
Proof.
  intros Hsel k r Hk.
  destruct (set_level_nth u lev (fill_row lapse t_p seed) k r Hk)
    as [r' [H1 [H2 [H3 H4]]]].
  exists r'. repeat split; try assumption.
  intros j x Hj Hx. destruct H4 as [H4|[H4 H5]].
  - now rewrite H4.
  - rewrite Hsel in H4. inversion H4; subst t_p.
    rewrite H5. unfold fill_row.
    rewrite (fill_cells_nth _ _ _ _ _ Hj). now rewrite fill_cell_present.
Qed.

Lemma top_down_body_keeps (s : list Q) (i : nat) (u u' : field) :
  top_down_body s i u = Some u' -> keeps u u'.
Proof.
  intros H.
  destruct (top_down_body_cases _ _ _ _ H)
    as [lev [t_p [_ [Hsel [[-> _]|[_ [_ [ta [_ ->]]]]]]]]].
  - apply keeps_refl.
  - now apply set_level_fill_keeps.
Qed.

Lemma bottom_up_body_keeps (bt : list Q) (i : nat) (u u' : field) :
  bottom_up_body bt i u = Some u' -> keeps u u'.
Proof.
  intros H.
  destruct (bottom_up_body_cases _ _ _ _ H)
    as [lev [lb [t_p [_ [_ [Hsel [[-> _]|[_ [_ [ta [_ ->]]]]]]]]]]].
  - apply keeps_refl.
  - now apply set_level_fill_keeps.
Qed.

Lemma for_range_keeps (body : nat -> field -> option field) (n i : nat)
      (t t' : field) :
  (forall k u u', body k u = Some u' -> keeps u u') ->
  for_range body i n t = Some t' -> keeps t t'.
Proof.
  intros Hb H.
  apply (for_range_invariant body (fun _ u => keeps t u) n i t t');
    [apply keeps_refl| |exact H].
  intros k u u' _ IH Hk. eapply keeps_trans; eauto.
Qed.

Lemma ext_temperature_keeps (t : field) (plevs : list Q) (t' : field) :
  ext_temperature t plevs = Some t' -> keeps t t'.
Proof.
  unfold ext_temperature, top_down, bottom_up. intros H. inv_bind H.
  apply (keeps_trans t x t').
  - eapply for_range_keeps; [|exact E].
    intros k u u'. apply top_down_body_keeps.
  - eapply for_range_keeps; [|exact H].
    intros k u u'. apply bottom_up_body_keeps.
Qed.

(** Lines 93-108, 128-143.  A cell that holds a value other than -99999
    before [ext_temperature] runs holds the same value when it returns,
    at the same place of an array of the same levels and heights. *)
Theorem present_cells_kept (t : field) (plevs : list Q) (t' : field)
        (k j : nat) (r : row) (v : Q) :
  ext_temperature t plevs = Some t' ->
  nth_error t k = Some r ->
  nth_error (values r) j = Some (Some v) ->
  ~ v == sentinel ->
  exists r',
    nth_error t' k = Some r' /\
    level r' = level r /\
    standard_height r' = standard_height r /\
    nth_error (values r') j = Some (Some v).
Proof.
  intros H Hk Hj Hv.
  destruct (ext_temperature_keeps t plevs t' H k r Hk) as [r' [A [B [C D]]]].
  exists r'. repeat split; auto.
Qed.

(** * Evaluations *)

(** C6.  The source means to write only where the original data have a
    NaN (comments at lines 94 and 106), but it finds those places by the
    value -99999 it has put there: a present cell that holds -99999, at a
    level with a gap elsewhere on the grid, is overwritten.  Here the cell
    at 500 hPa comes back as 220 + 6.5 * (15.797 - 5.574). *)
Lemma sentinel_cell_overwritten :
  cell_at sentinel_field 1 0 = Some (Some (-99999)) /\
  exists t' v,
    ext_temperature sentinel_field sentinel_levels = Some t' /\
    cell_at t' 1 0 = Some (Some v) /\
    v == 220 + 6.5 * (15.797 - 5.574) /\
    ~ v == -99999.
Proof.
  split; [reflexivity|]. eexists. eexists.
  split; [vm_compute; reflexivity|].
  split; [reflexivity|].
  split; [reflexivity|]. intros H; vm_compute in H; discriminate.
Qed.

(** C9, an empty list of levels: the call returns, with the field. *)
Lemma empty_levels_return_the_field :
  ext_temperature below_ground_field [] = Some below_ground_field /\
  ext_temperature below_ground_field [] <> None.
Proof. split; [reflexivity|discriminate]. Qed.

(** C5, scenario A.  With the array stored as listed (1000, 500, 100 hPa)
    the first loop visits 100 hPa first and leaves it missing; the level is
    still missing when [ext_temperature] returns.  With the same data
    stored in ascending pressure, 100 hPa is filled in the first iteration,
    while 500 hPa is still missing, and 500 hPa is then filled from
    100 hPa, not from 1000 hPa. *)
Lemma scenario_A_is_not_filled_upwards :
  (exists t',
      top_down (sort scenario_A_levels) scenario_A = Some t' /\
      ext_temperature scenario_A scenario_A_levels = Some t' /\
      option_map level (nth_error t' 2) = Some 100 /\
      cell_at t' 2 0 = Some None) /\
  (exists u t' v100 v500,
      top_down_body (sort scenario_A_levels) 0 scenario_A_ascending
        = Some u /\
      cell_at u 0 0 = Some (Some v100) /\
      cell_at u 1 0 = Some None /\
      top_down (sort scenario_A_levels) scenario_A_ascending = Some t' /\
      cell_at t' 0 0 = Some (Some v100) /\
      cell_at t' 1 0 = Some (Some v500) /\
      v500 == v100 + 6.5 * (15.797 - 5.574) /\
      ~ v500 == 290 + 6.5 * (0.111 - 5.574)).
Proof.
  split.
  - eexists. split; [vm_compute; reflexivity|].
    split; [vm_compute; reflexivity|]. split; reflexivity.
  - eexists. eexists. eexists. eexists.
    split; [vm_compute; reflexivity|].
    split; [reflexivity|]. split; [reflexivity|].
    split; [vm_compute; reflexivity|].
    split; [reflexivity|]. split; [reflexivity|].
    split; [reflexivity|]. intros H; vm_compute in H; discriminate.
Qed.

(** C1, two inner gaps that stay.  A gap at 50 hPa, with 30 and 70 hPa
    present on either side, is filled by neither loop; a gap at 500 hPa,
    with 100 and 1000 hPa present, on an array stored as 500, 100, 1000 hPa
    is seeded by position from its own entry.  In both cases
    [ext_temperature] returns the field as it came, the cell still
    missing. *)
Lemma inner_gap_left_missing :
  (cell_at gap_at_50_field 0 0 = Some (Some 218) /\
   cell_at gap_at_50_field 1 0 = Some None /\
   cell_at gap_at_50_field 2 0 = Some (Some 215) /\
   ext_temperature gap_at_50_field gap_at_50_levels
     = Some gap_at_50_field /\
   fully_populated gap_at_50_field = false) /\
  (sel unsorted_gap_field 100 = Some (mkRow 100 15.797 [Some 220]) /\
   sel unsorted_gap_field 500 = Some (mkRow 500 5.574 [None]) /\
   sel unsorted_gap_field 1000 = Some (mkRow 1000 0.111 [Some 288]) /\
   ext_temperature unsorted_gap_field unsorted_gap_levels
     = Some unsorted_gap_field /\
   fully_populated unsorted_gap_field = false).
Proof. repeat split; vm_compute; reflexivity. Qed.

(** C7.  A gap at the first level a loop visits is filled from the entry
    the index -1 wraps around to: in the first loop the 300 hPa level is
    filled from the last stored entry, 1000 hPa; in the second loop the
    30 hPa level is filled from the last label of the reversed list,
    10 hPa. *)
Theorem first_level_gap_filled_by_wraparound :
  (exists t' v,
      ext_temperature first_gap_top_down first_gap_top_down_levels
        = Some t' /\
      nth_error (sort first_gap_top_down_levels) 0 = Some 300 /\
      cell_at first_gap_top_down 0 0 = Some None /\
      isel first_gap_top_down (Z.of_nat 0 - 1)
        = Some (mkRow 1000 0.111 [Some 288]) /\
      cell_at t' 0 0 = Some (Some v) /\
      v == 288 + 6.5 * (0.111 - 9.164)) /\
  (exists t' v,
      ext_temperature first_gap_bottom_up first_gap_bottom_up_levels
        = Some t' /\
      nth_error (rev (sort first_gap_bottom_up_levels)) 0 = Some 30 /\
      cell_at first_gap_bottom_up 2 0 = Some None /\
      py_index (rev (sort first_gap_bottom_up_levels)) (Z.of_nat 0 - 1)
        = Some 10 /\
      cell_at t' 2 0 = Some (Some v) /\
      v == 225 + -2.8 * (25.919 - 21.639)).
Proof.
  split; eexists; eexists;
    (split; [vm_compute; reflexivity|]); repeat split; reflexivity.
Qed.

(** * Completeness away from 50 hPa *)

Lemma for_range_total (body : nat -> field -> option field)
      (P : nat -> field -> Prop) (n i : nat) (t : field) :
  P i t ->
  (forall k u, (i <= k < i + n)%nat -> P k u ->
               exists u', body k u = Some u' /\ P (S k) u') ->
  exists t', for_range body i n t = Some t' /\ P (i + n)%nat t'.
Proof.
  revert i t; induction n as [|n IH]; intros i t H0 Hstep; simpl.
  - exists t. now rewrite Nat.add_0_r.
  - destruct (Hstep i t) as [u [Hu Pu]]; [lia|assumption|].
    rewrite Hu; simpl. rewrite Nat.add_succ_r.
    apply (IH (S i) u Pu). intros k v Hk. apply Hstep. lia.
Qed.

(** With strictly ascending labels, assignment by label is assignment at
    the position that carries the label. *)
Lemma set_level_nth_ascending (u : field) (i : nat) (r : row)
      (vs : list cell) (k : nat) :
  ascending (map level u) = true -> nth_error u i = Some r ->
  nth_error (set_level u (level r) vs) k =
  if Nat.eqb k i then Some (mkRow (level r) (standard_height r) vs)
  else nth_error u k.
Proof.
  revert i k; induction u as [|a u IH]; intros i k H Hi.
  - destruct i; discriminate.
  - destruct i as [|i]; simpl in Hi.
    + inversion Hi; subst a. simpl. rewrite Qeq_bool_refl.
      destruct k; reflexivity.
    + simpl. rewrite Qeq_bool_lt.
      * destruct k as [|k]; [reflexivity|]. simpl.
        apply IH; [eapply ascending_tail; eauto|assumption].
      * apply (ascending_head_lt _ _ (map level u) H).
        apply in_map. eapply nth_error_In; eauto.
Qed.

Lemma any_isnan_witness (r : row) :
  any_isnan r = true -> exists j, nth_error (values r) j = Some None.
Proof.
  unfold any_isnan. intros H. apply existsb_exists in H.
  destruct H as [c [Hin Hc]]. destruct c; [discriminate|].
  now apply In_nth_error.
Qed.

Lemma fill_cells_full (d : Q) (cur seed : list cell) :
  (forall j c, nth_error cur j = Some c ->
               fill_cell d c (nth j seed None) <> None) ->
  existsb isnan (fill_cells d cur seed) = false.
Proof.
  intros H. destruct (existsb isnan (fill_cells d cur seed)) eqn:E;
    [|reflexivity].
  apply existsb_exists in E. destruct E as [c [Hin Hc]].
  destruct c; [discriminate|].
  apply In_nth_error in Hin. destruct Hin as [j Hj].
  assert (Hlt : (j < length cur)%nat).
  { rewrite <- (fill_cells_length d cur seed). apply nth_error_Some.
    congruence. }
  destruct (nth_error cur j) as [c|] eqn:Ec;
    [|apply nth_error_None in Ec; lia].
  rewrite (fill_cells_nth _ _ _ _ _ Ec) in Hj. inversion Hj as [Hj'].
  exfalso. exact (H j c Ec Hj').
Qed.

(** The hypotheses of completeness, as facts about cells. *)
Lemma cell_at_position (t : field) (k j : nat) (c : cell) :
  cell_at t k j = Some c -> In (k, j) (positions t).
Proof.
  unfold cell_at, positions. intros H.
  destruct (nth_error t k) as [r|] eqn:Er; [simpl in H|discriminate].
  apply in_flat_map. exists k. split.
  - apply in_seq. split; [lia|]. simpl. apply nth_error_Some. congruence.
  - apply in_map. apply in_seq. split; [lia|]. simpl.
    unfold row_width. rewrite Er. apply nth_error_Some. congruence.
Qed.

Lemma present_at_true (t : field) (k j : nat) :
  present_at t k j = true -> exists x, cell_at t k j = Some (Some x).
Proof.
  unfold present_at. destruct (cell_at t k j) as [[x|]|]; try discriminate.
  intros _. now exists x.
Qed.

Lemma gaps_inside_spec (t : field) (k j : nat) :
  gaps_inside t = true -> cell_at t k j = Some None ->
  (1 <= k)%nat /\
  (exists x, cell_at t (k - 1) j = Some (Some x)) /\
  (exists y, cell_at t (S k) j = Some (Some y)).
Proof.
  unfold gaps_inside. rewrite forallb_forall. intros H Hc.
  specialize (H (k, j) (cell_at_position _ _ _ _ Hc)). cbn [fst snd] in H.
  unfold missing_at in H. rewrite Hc in H.
  apply andb_true_iff in H. destruct H as [H H3].
  apply andb_true_iff in H. destruct H as [H1 H2].
  apply Nat.leb_le in H1.
  split; [assumption|]. split; now apply present_at_true.
Qed.

Lemma no_sentinel_spec (t : field) (k j : nat) (v : Q) :
  no_sentinel t = true -> cell_at t k j = Some (Some v) -> ~ v == sentinel.
Proof.
  unfold no_sentinel, cell_at. rewrite forallb_forall. intros H Hc.
  destruct (nth_error t k) as [r|] eqn:Er; [simpl in Hc|discriminate].
  specialize (H r (nth_error_In _ _ Er)). rewrite forallb_forall in H.
  specialize (H (Some v) (nth_error_In _ _ Hc)). simpl in H.
  intros E. apply Qeq_bool_iff in E. rewrite E in H. discriminate.
Qed.

Lemma no_gap_at_50_spec (t : field) (r : row) :
  no_gap_at_50 t = true -> In r t -> level r == 50 -> any_isnan r = false.
Proof.
  unfold no_gap_at_50. rewrite forallb_forall. intros H Hr E.
  specialize (H r Hr). apply Qeq_bool_iff in E. rewrite E in H.
  simpl in H. now apply negb_true_iff in H.
Qed.

Section Completeness.

Variable t : field.
Variable plevs : list Q.
Hypothesis Hal : aligned t plevs.
Hypothesis Hns : no_sentinel t = true.
Hypothesis Hgap : gaps_inside t = true.

(** Filling entry [k] from entry [ks] leaves no NaN when every gap of
    entry [k] is covered by a present cell of entry [ks]. *)
Lemma filled_row_full (u : field) (k ks : nat) (r seed : row) (lapse : Q) :
  keeps t u -> nth_error t k = Some r -> nth_error u ks = Some seed ->
  (forall j, cell_at t k j = Some None ->
             exists x, cell_at t ks j = Some (Some x)) ->
  existsb isnan (fill_row lapse r seed) = false.
Proof.
  intros Hk Hr Hs Hcov. unfold fill_row. apply fill_cells_full.
  intros j c Hc.
  assert (Hcell : cell_at t k j = Some c)
    by (unfold cell_at; rewrite Hr; exact Hc).
  destruct c as [w|].
  - rewrite fill_cell_present; [discriminate|].
    exact (no_sentinel_spec t k j w Hns Hcell).
  - destruct (Hcov j Hcell) as [x Hx].
    pose proof (no_sentinel_spec t ks j x Hns Hx) as Hxs.
    unfold cell_at in Hx.
    destruct (nth_error t ks) as [rs|] eqn:Ers; [simpl in Hx|discriminate].
    destruct (Hk ks rs Ers) as [r' [A [_ [_ D]]]].
    rewrite Hs in A. inversion A; subst r'.
    rewrite (nth_error_nth_Some _ _ _ (D j x Hx Hxs)).
    rewrite fill_cell_missing. discriminate.
Qed.

Lemma top_down_step_inv (i : nat) (u : field) :
  (i < length (sort plevs))%nat -> top_down_inv t i u ->
  exists u', top_down_body (sort plevs) i u = Some u'
             /\ top_down_inv t (S i) u'.
Proof.
  intros Hi [Hlv [Hk Hrows]]. destruct Hal as [Hts Hasc].
  assert (Hus : map level u = sort plevs) by congruence.
  assert (Hua : ascending (map level u) = true) by (rewrite Hlv; exact Hasc).
  assert (Hlen : length u = length (sort plevs))
    by (rewrite <- Hus; now rewrite length_map).
  destruct (nth_error u i) as [r|] eqn:Er;
    [|apply nth_error_None in Er; lia].
  assert (Hlev : nth_error (sort plevs) i = Some (level r))
    by (rewrite <- Hus; now apply map_nth_error).
  pose proof (sel_nth_ascending u i r Hua Er) as Hsel.
  destruct (Hrows i r Er) as [_ Ht]. specialize (Ht (or_introl (le_n i))).
  destruct (any_isnan r && Qlt_bool 50 (level r)) eqn:G.
  - apply andb_true_iff in G. destruct G as [Gn Gl].
    apply Qlt_bool_iff in Gl.
    destruct (any_isnan_witness r Gn) as [j Hj].
    assert (Hc : cell_at t i j = Some None)
      by (unfold cell_at; rewrite Ht; exact Hj).
    destruct (gaps_inside_spec t i j Hgap Hc) as [Hi1 _].
    destruct (nth_error u (i - 1)) as [seed|] eqn:Es;
      [|apply nth_error_None in Es; lia].
    exists (set_level u (level r) (fill_row (lapse_top_down (level r)) r seed)).
    split.
    + apply top_down_body_fill; auto.
      unfold isel. rewrite py_index_pred by lia. exact Es.
    + split; [|split].
      * rewrite set_level_levels. exact Hlv.
      * eapply keeps_trans; [exact Hk|]. now apply set_level_fill_keeps.
      * intros k r' Hk'.
        rewrite (set_level_nth_ascending u i r _ k Hua Er) in Hk'.
        destruct (Nat.eqb_spec k i) as [->|Hne].
        -- inversion Hk'; subst r'. simpl. split.
           ++ intros _ _. unfold any_isnan; simpl.
              apply (filled_row_full u i (i - 1) r seed _ Hk Ht Es).
              intros j' Hc'.
              destruct (gaps_inside_spec t i j' Hgap Hc') as [_ [Hx _]].
              exact Hx.
           ++ intros [L|L]; [lia|]. exfalso. exact (Qlt_not_le _ _ Gl L).
        -- destruct (Hrows k r' Hk') as [A B]. split.
           ++ intros L. apply A. lia.
           ++ intros [L|L]; apply B; [left; lia|right; assumption].
  - exists u. split.
    + eapply top_down_body_skip; eauto.
    + split; [assumption|split; [assumption|]].
      intros k r' Hk'. destruct (Hrows k r' Hk') as [A B]. split.
      * intros L Hl. destruct (Nat.eq_dec k i) as [->|Hne].
        -- rewrite Er in Hk'. inversion Hk'; subst r'.
           apply andb_false_iff in G. destruct G as [G|G]; [assumption|].
           apply Qlt_bool_iff in Hl. congruence.
        -- apply A; [lia|assumption].
      * intros [L|L]; apply B; [left; lia|right; assumption].
Qed.

Lemma top_down_complete_inv :
  exists t1, top_down (sort plevs) t = Some t1
             /\ top_down_inv t (length (sort plevs)) t1.
Proof.
  unfold top_down.
  apply (for_range_total (top_down_body (sort plevs)) (top_down_inv t)
           (length (sort plevs)) 0 t).
  - split; [reflexivity|split; [apply keeps_refl|]].
    intros k r Hk. split; [lia|auto].
  - intros k u Hk. apply top_down_step_inv. lia.
Qed.

Lemma bottom_up_step_inv (i : nat) (u : field) :
  (i < length (sort plevs))%nat -> bottom_up_inv t i u ->
  exists u', bottom_up_body (rev (sort plevs)) i u = Some u'
             /\ bottom_up_inv t (S i) u'.
Proof.
  intros Hi [Hlv [Hk Hrows]]. destruct Hal as [Hts Hasc].
  assert (Hus : map level u = sort plevs) by congruence.
  assert (Hua : ascending (map level u) = true) by (rewrite Hlv; exact Hasc).
  assert (Hlen : length u = length (sort plevs))
    by (rewrite <- Hus; now rewrite length_map).
  assert (Hlt : length t = length (sort plevs))
    by (rewrite <- Hts; now rewrite length_map).
  set (k0 := (length t - S i)%nat).
  destruct (nth_error u k0) as [r|] eqn:Er;
    [|apply nth_error_None in Er; unfold k0 in Er; lia].
  assert (Hlev : nth_error (rev (sort plevs)) i = Some (level r)).
  { rewrite nth_error_rev.
    destruct (Nat.ltb_spec i (length (sort plevs))); [|lia].
    rewrite <- Hlt. fold k0. rewrite <- Hus. now apply map_nth_error. }
  destruct (py_index (rev (sort plevs)) (Z.of_nat i - 1)) as [lb|] eqn:Elb.
  2:{ exfalso. apply (py_index_lookback (rev (sort plevs)) i);
        [rewrite length_rev; lia|assumption]. }
  pose proof (sel_nth_ascending u k0 r Hua Er) as Hsel.
  destruct (any_isnan r && Qlt_bool (level r) 50) eqn:G.
  - apply andb_true_iff in G. destruct G as [Gn Gl].
    apply Qlt_bool_iff in Gl.
    destruct (Hrows k0 r Er) as [_ [_ Ht]].
    specialize (Ht (Qlt_le_weak _ _ Gl)).
    assert (Hk0 : (k0 < length t - i)%nat) by (unfold k0; lia).
    specialize (Ht (or_introl Hk0)).
    destruct (any_isnan_witness r Gn) as [j Hj].
    assert (Hc : cell_at t k0 j = Some None)
      by (unfold cell_at; rewrite Ht; exact Hj).
    destruct (gaps_inside_spec t k0 j Hgap Hc) as [_ [_ [y Hy]]].
    assert (Hin : (S k0 < length t)%nat).
    { unfold cell_at in Hy. apply nth_error_Some.
      destruct (nth_error t (S k0)); [discriminate|discriminate]. }
    destruct (nth_error u (S k0)) as [seed|] eqn:Es;
      [|apply nth_error_None in Es; lia].
    assert (Hlb : lb = level seed).
    { rewrite py_index_pred in Elb by (unfold k0 in Hin; lia).
      rewrite nth_error_rev in Elb.
      destruct (Nat.ltb_spec (i - 1) (length (sort plevs))); [|lia].
      replace (length (sort plevs) - S (i - 1))%nat with (S k0) in Elb
        by (unfold k0 in *; lia).
      rewrite <- Hus in Elb. rewrite (map_nth_error level _ _ Es) in Elb.
      now inversion Elb. }
    pose proof (sel_nth_ascending u (S k0) seed Hua Es) as Hseed.
    rewrite <- Hlb in Hseed.
    exists (set_level u (level r)
              (fill_row (lapse_bottom_up (level r)) r seed)).
    split.
    + eapply bottom_up_body_fill; eauto.
    + split; [|split].
      * rewrite set_level_levels. exact Hlv.
      * eapply keeps_trans; [exact Hk|]. now apply set_level_fill_keeps.
      * intros k r' Hk'.
        rewrite (set_level_nth_ascending u k0 r _ k Hua Er) in Hk'.
        destruct (Nat.eqb_spec k k0) as [->|Hne].
        -- inversion Hk'; subst r'. simpl.
           assert (F : existsb isnan
                         (fill_row (lapse_bottom_up (level r)) r seed) = false).
           { apply (filled_row_full u k0 (S k0) r seed _ Hk Ht Es).
             intros j' Hc'.
             destruct (gaps_inside_spec t k0 j' Hgap Hc') as [_ [_ Hx]].
             exact Hx. }
           split; [intros _; exact F|split; [intros _ _; exact F|]].
           intros _ [L|L]; [unfold k0 in L; lia|].
           exfalso. rewrite L in Gl. exact (Qlt_irrefl _ Gl).
        -- destruct (Hrows k r' Hk') as [A [B C]].
           split; [exact A|split].
           ++ intros L1 L2. apply B; [assumption|]. unfold k0 in Hne. lia.
           ++ intros L1 [L2|L2]; apply C; auto. left. lia.
  - exists u. split.
    + eapply bottom_up_body_skip; eauto.
    + split; [assumption|split; [assumption|]].
      intros k r' Hk'. destruct (Hrows k r' Hk') as [A [B C]].
      split; [exact A|split].
      * intros L1 L2. destruct (Nat.eq_dec k k0) as [->|Hne].
        -- rewrite Er in Hk'. inversion Hk'; subst r'.
           apply andb_false_iff in G. destruct G as [G|G]; [assumption|].
           apply Qlt_bool_iff in L1. congruence.
        -- apply B; [assumption|]. unfold k0 in Hne. lia.
      * intros L1 [L2|L2]; apply C; auto. left. lia.
Qed.

Lemma bottom_up_complete_inv (t1 : field) :
  top_down_inv t (length (sort plevs)) t1 ->
  exists t', bottom_up (rev (sort plevs)) t1 = Some t'
             /\ bottom_up_inv t (length (sort plevs)) t'.
Proof.
  intros [Hlv [Hk Hrows]]. destruct Hal as [Hts Hasc].
  assert (Hlt : length t = length (sort plevs))
    by (rewrite <- Hts; now rewrite length_map).
  assert (Hl1 : length t1 = length t)
    by (rewrite <- (length_map level t1), Hlv; apply length_map).
  unfold bottom_up. rewrite length_rev.
  apply (for_range_total (bottom_up_body (rev (sort plevs)))
           (bottom_up_inv t) (length (sort plevs)) 0 t1).
  - split; [assumption|split; [assumption|]].
    intros k r Hkr. destruct (Hrows k r Hkr) as [A B].
    assert (Hb : (k < length t1)%nat) by (apply nth_error_Some; congruence).
    split; [|split].
    + intros L. apply A; [lia|assumption].
    + intros _ L. lia.
    + intros L _. apply B. now right.
  - intros k u Hkk. apply bottom_up_step_inv. lia.
Qed.

Lemma bottom_up_inv_full (t' : field) :
  no_gap_at_50 t = true ->
  bottom_up_inv t (length (sort plevs)) t' -> fully_populated t' = true.
Proof.
  intros H50 [Hlv [Hk Hrows]]. destruct Hal as [Hts Hasc].
  assert (Hlt : length t = length (sort plevs))
    by (rewrite <- Hts; now rewrite length_map).
  unfold fully_populated. apply forallb_forall. intros r Hr.
  apply negb_true_iff. apply In_nth_error in Hr. destruct Hr as [k Hkr].
  destruct (Hrows k r Hkr) as [A [B C]].
  destruct (Q_dec (level r) 50) as [[L|L]|E].
  - apply B; [assumption|lia].
  - now apply A.
  - apply (no_gap_at_50_spec t r H50); [|assumption].
    apply (nth_error_In t k). apply C; [|now right].
    rewrite E. apply Qle_refl.
Qed.

End Completeness.

(** C1 (as the code has it).  On an array that holds the requested levels
    in ascending pressure, with no present cell equal to the sentinel, with
    gaps only inside the level range (each missing cell has the same grid
    position present at the entry before and at the entry after) and with
    no gap at a level of exactly 50 hPa, [ext_temperature] returns, and
    the field it returns has no missing cell; the cells that were present
    keep their values. *)
Theorem inner_gaps_are_filled (t : field) (plevs : list Q) :
  aligned t plevs ->
  no_sentinel t = true ->
  gaps_inside t = true ->
  no_gap_at_50 t = true ->
  exists t',
    ext_temperature t plevs = Some t' /\
    fully_populated t' = true /\
    keeps t t'.
Proof.
  intros Hal Hns Hgap H50.
  destruct (top_down_complete_inv t plevs Hal Hns Hgap) as [t1 [H1 I1]].
  destruct (bottom_up_complete_inv t plevs Hal Hns Hgap t1 I1) as [t' [H2 I2]].
  exists t'. split; [|split].
  - unfold ext_temperature. rewrite H1. simpl. exact H2.
  - exact (bottom_up_inv_full t plevs Hal t' H50 I2).
  - destruct I2 as [_ [K _]]. exact K.
Qed.

(** * Instances

    Each theorem above that carries hypotheses, applied to one of the
    example fields. *)

Lemma inner_gaps_are_filled_witness :
  aligned two_gaps_field two_gaps_levels /\
  exists t',
    ext_temperature two_gaps_field two_gaps_levels = Some t' /\
    fully_populated t' = true /\
    keeps two_gaps_field t'.
Proof.
  assert (H : aligned two_gaps_field two_gaps_levels)
    by (split; reflexivity).
  split; [exact H|].
  apply (inner_gaps_are_filled two_gaps_field two_gaps_levels H);
    reflexivity.
Defined.

Lemma top_down_gate_and_lapse_witness :
  exists t' u',
    top_down below_ground_levels below_ground_field = Some t' /\
    top_down_body below_ground_levels 1 below_ground_field = Some u' /\
    nth_error t' 0 = Some (mkRow 100 15.797 [Some 220]) /\
    lapse_top_down 500 = 6.5.
Proof.
  eexists. eexists.
  split; [vm_compute; reflexivity|]. split; [vm_compute; reflexivity|].
  destruct (top_down_gate_and_lapse below_ground_levels below_ground_field
              _ 1 below_ground_field _ eq_refl eq_refl) as [F [_ B]].
  split.
  - apply F; [reflexivity|]. left. reflexivity.
  - destruct (B 500) as [B1 _]. apply B1. discriminate.
Defined.

Lemma bottom_up_gate_and_lapse_witness :
  exists t' u',
    bottom_up (rev two_gaps_levels) two_gaps_field = Some t' /\
    bottom_up_body (rev two_gaps_levels) 3 two_gaps_field = Some u' /\
    nth_error t' 3 = Some (mkRow 500 5.574 [None]) /\
    lapse_bottom_up 20 = -2.8.
Proof.
  eexists. eexists.
  split; [vm_compute; reflexivity|]. split; [vm_compute; reflexivity|].
  destruct (bottom_up_gate_and_lapse (rev two_gaps_levels) two_gaps_field
              _ 3 two_gaps_field _ eq_refl eq_refl) as [F [_ B]].
  split.
  - apply F; [reflexivity|]. right. discriminate.
  - destruct (B 20) as [B1 _]. apply B1. discriminate.
Defined.

Lemma top_down_propagates_cumulatively_witness :
  exists prev seed,
    nth_error (sort below_ground_levels) (2 - 1) = Some prev /\
    isel below_ground_after_500 (Z.of_nat 2 - 1) = Some seed /\
    sel below_ground_after_500 prev = Some seed.
Proof.
  destruct top_down_propagates_cumulatively as [G _].
  assert (Hal : aligned below_ground_field below_ground_levels)
    by (split; reflexivity).
  destruct (G below_ground_field below_ground_levels 2%nat
              below_ground_after_500 _ Hal (le_S 1 1 (le_n 1))
              eq_refl eq_refl)
    as [u0 [prev [lev [t_p [seed [_ [_ [H3 [_ [_ [H6 [H7 _]]]]]]]]]]]].
  exists prev, seed. repeat split; assumption.
Defined.

Lemma present_cells_kept_witness :
  exists t' r',
    ext_temperature sentinel_field sentinel_levels = Some t' /\
    nth_error t' 0 = Some r' /\
    level r' = 100 /\
    standard_height r' = 15.797 /\
    nth_error (values r') 1 = Some (Some 221).
Proof.
  destruct (ext_temperature sentinel_field sentinel_levels) as [t'|] eqn:E;
    [|vm_compute in E; discriminate].
  destruct (present_cells_kept sentinel_field sentinel_levels t' 0 1
              (mkRow 100 15.797 [Some 220; Some 221]) 221 E eq_refl eq_refl)
    as [r' [A [B [C D]]]].
  - intros H. vm_compute in H. discriminate.
  - exists t', r'. repeat split; assumption.
Defined.

Lemma ext_temperature_identity_on_full_witness :
  ext_temperature full_field full_levels = Some full_field /\
  (t' <- ext_temperature full_field full_levels ;;
   ext_temperature t' full_levels) = Some full_field.
Proof.
  apply (ext_temperature_identity_on_full full_field full_levels).
  - reflexivity.
  - intros lev [<-|[<-|[]]]; vm_compute; discriminate.
Defined.

(** * Further properties of [ext_temperature] *)

(** ** The sorted copy *)

Lemma insert_sorted_perm (x : Q) (l : list Q) :
  Permutation (x :: l) (insert_sorted x l).
Proof.
  induction l as [|a l IH]; simpl; [apply Permutation_refl|].
  destruct (Qle_bool x a); [apply Permutation_refl|].
  eapply Permutation_trans; [apply perm_swap|]. now apply perm_skip.
Qed.

Lemma sort_perm (l : list Q) : Permutation l (sort l).
Proof.
  induction l as [|a l IH]; simpl; [apply perm_nil|].
  eapply Permutation_trans; [|apply insert_sorted_perm]. now apply perm_skip.
Qed.

Lemma insert_sorted_HdRel (x a : Q) (l : list Q) :
  a <= x -> HdRel Qle a l -> HdRel Qle a (insert_sorted x l).
Proof.
  intros Hax H. destruct l as [|b l]; simpl; [now constructor|].
  destruct (Qle_bool x b); constructor; [assumption|].
  now inversion H.
Qed.

Lemma insert_sorted_sorted (x : Q) (l : list Q) :
  Sorted Qle l -> Sorted Qle (insert_sorted x l).
Proof.
  induction l as [|a l IH]; intros H; simpl.
  - repeat constructor.
  - destruct (Qle_bool x a) eqn:E.
    + constructor; [assumption|]. constructor. now apply Qle_bool_iff.
    + inversion H as [|? ? Hs Hh]; subst. constructor; [now apply IH|].
      apply insert_sorted_HdRel; [|assumption].
      apply Qlt_le_weak. apply Qlt_bool_iff. unfold Qlt_bool. now rewrite E.
Qed.

Lemma sort_sorted (l : list Q) : Sorted Qle (sort l).
Proof.
  induction l as [|a l IH]; simpl; [constructor|].
  now apply insert_sorted_sorted.
Qed.

(** Line 68.  The list the loops walk is the supplied list put in
    non-decreasing order: the same levels, each as often as supplied. *)
Theorem sort_is_sorted_permutation (plevs : list Q) :
  Permutation plevs (sort plevs) /\ Sorted Qle (sort plevs).
Proof. split; [apply sort_perm|apply sort_sorted]. Qed.

Lemma Sorted_Qle_head (a x : Q) (l : list Q) :
  Sorted Qle (a :: l) -> In x l -> a <= x.
Proof.
  intros H Hx. apply Sorted_StronglySorted in H.
  - inversion H as [|? ? _ Hall]; subst.
    rewrite Forall_forall in Hall. now apply Hall.
  - intros p q r. apply Qle_trans.
Qed.

(** A strictly ascending list is the only sorted arrangement of its
    elements. *)
Lemma ascending_perm_unique (l1 l2 : list Q) :
  ascending l1 = true -> Sorted Qle l2 -> Permutation l1 l2 -> l1 = l2.
Proof.
  revert l2; induction l1 as [|a l1 IH]; intros l2 H1 H2 HP.
  - apply Permutation_nil in HP. now subst.
  - destruct l2 as [|b l2];
      [apply Permutation_sym, Permutation_nil in HP; discriminate|].
    assert (Hab : a = b).
    { assert (Hb : In b (a :: l1))
        by (eapply Permutation_in; [apply Permutation_sym; exact HP|now left]).
      destruct Hb as [Hb|Hb]; [assumption|].
      pose proof (ascending_head_lt a b l1 H1 Hb) as Hlt.
      assert (Ha : In a (b :: l2))
        by (eapply Permutation_in; [exact HP|now left]).
      destruct Ha as [Ha|Ha]; [now symmetry|].
      pose proof (Sorted_Qle_head b a l2 H2 Ha) as Hle.
      exfalso. exact (Qlt_not_le _ _ Hlt Hle). }
    subst b. f_equal. apply IH.
    + eapply ascending_tail; eauto.
    + now inversion H2.
    + eapply Permutation_cons_inv; eauto.
Qed.

(** The order in which the levels are supplied does not matter: two
    lists of the same distinct levels give the same result. *)
Theorem ext_temperature_order_of_levels (t : field) (p1 p2 : list Q) :
  Permutation p1 p2 -> ascending (sort p1) = true ->
  ext_temperature t p1 = ext_temperature t p2.
Proof.
  intros HP Hasc.
  assert (E : sort p1 = sort p2).
  { apply ascending_perm_unique; [assumption| |].
    - apply sort_sorted.
    - eapply Permutation_trans; [apply Permutation_sym, sort_perm|].
      eapply Permutation_trans; [exact HP|apply sort_perm]. }
  unfold ext_temperature. now rewrite E.
Qed.

(** ** When the call raises *)

(** Selection by label looks at the labels only. *)
Lemma sel_None_levels (t u : field) (lev : Q) :
  map level u = map level t -> sel t lev = None -> sel u lev = None.
Proof.
  revert u; induction t as [|a t IH]; intros u Hm H.
  - destruct u; [reflexivity|discriminate].
  - destruct u as [|b u]; [reflexivity|]. simpl in *.
    inversion Hm as [[Hb Hu]]. rewrite Hb.
    destruct (Qeq_bool (level a) lev); [discriminate|]. now apply IH.
Qed.

Lemma sel_label (t : field) (lev : Q) :
  In lev (map level t) -> sel t lev <> None.
Proof.
  induction t as [|a t IH]; simpl; [tauto|].
  intros [E|H].
  - subst. rewrite Qeq_bool_refl. discriminate.
  - destruct (Qeq_bool (level a) lev); [discriminate|auto].
Qed.

Lemma sel_Some_levels (t u : field) (lev : Q) :
  map level u = map level t -> sel t lev <> None -> sel u lev <> None.
Proof.
  intros Hm H Hn. apply H.
  apply (sel_None_levels u t); [now symmetry|assumption].
Qed.

(** A loop raises as soon as one of its iterations raises on every array
    that can reach it. *)
Lemma for_range_raises (body : nat -> field -> option field)
      (R : field -> Prop) (n i k : nat) (t : field) :
  (i <= k < i + n)%nat -> R t ->
  (forall j u u', body j u = Some u' -> R u -> R u') ->
  (forall u, R u -> body k u = None) ->
  for_range body i n t = None.
Proof.
  revert i t; induction n as [|n IH]; intros i t Hk Ht Hstep Hfail; [lia|].
  simpl. destruct (Nat.eq_dec i k) as [->|Hne].
  - now rewrite (Hfail t Ht).
  - destruct (body i t) as [u|] eqn:E; [simpl|reflexivity].
    apply IH; [lia| |assumption|assumption]. eapply Hstep; eauto.
Qed.

Lemma ext_temperature_KeyError (t : field) (plevs : list Q) (lev : Q) :
  In lev plevs -> sel t lev = None -> ext_temperature t plevs = None.
Proof.
  intros Hin Hsel. unfold ext_temperature.
  assert (Hs : In lev (sort plevs)) by now apply sort_In.
  apply In_nth_error in Hs. destruct Hs as [k Hk].
  assert (Hlt : (k < length (sort plevs))%nat)
    by (apply nth_error_Some; congruence).
  unfold top_down.
  rewrite (for_range_raises (top_down_body (sort plevs))
             (fun u => map level u = map level t)
             (length (sort plevs)) 0 k t); try reflexivity.
  - lia.
  - intros j u u' Hb Hu. rewrite <- Hu.
    eapply top_down_body_levels; eauto.
  - intros u Hu. unfold top_down_body. rewrite Hk. simpl.
    now rewrite (sel_None_levels t u lev Hu Hsel).
Qed.

Lemma top_down_returns (t : field) (s : list Q) :
  (forall lev, In lev s -> sel t lev <> None) ->
  (length s <= length t)%nat ->
  exists t1, top_down s t = Some t1 /\ map level t1 = map level t.
Proof.
  intros Hsel Hlen. unfold top_down.
  destruct (for_range_total (top_down_body s)
              (fun _ u => map level u = map level t) (length s) 0 t)
    as [t1 [H1 H2]]; [reflexivity| |now exists t1].
  intros k u Hk Hu.
  assert (Hlu : length u = length t)
    by (rewrite <- (length_map level u), Hu; apply length_map).
  destruct (nth_error s k) as [lev|] eqn:El;
    [|apply nth_error_None in El; lia].
  assert (Hl : sel u lev <> None).
  { apply (sel_Some_levels t u lev Hu). apply Hsel.
    eapply nth_error_In; eauto. }
  destruct (sel u lev) as [r|] eqn:Er; [|contradiction].
  destruct (any_isnan r && Qlt_bool 50 lev) eqn:G.
  - assert (Hne : isel u (Z.of_nat k - 1) <> None).
    { unfold isel. destruct k as [|k].
      - rewrite py_index_wrap. apply nth_error_Some.
        destruct u; [discriminate|simpl; lia].
      - rewrite py_index_pred by lia. apply nth_error_Some. lia. }
    destruct (isel u (Z.of_nat k - 1)) as [seed|] eqn:Es; [|contradiction].
    exists (set_level u lev (fill_row (lapse_top_down lev) r seed)).
    split.
    + unfold top_down_body. rewrite El; simpl. rewrite Er; simpl.
      rewrite G. now rewrite Es.
    + now rewrite set_level_levels.
  - exists u. split; [|assumption].
    eapply top_down_body_skip; eauto.
Qed.

Lemma bottom_up_returns (t : field) (bt : list Q) :
  (forall lev, In lev bt -> sel t lev <> None) ->
  exists t', bottom_up bt t = Some t' /\ map level t' = map level t.
Proof.
  intros Hsel. unfold bottom_up.
  destruct (for_range_total (bottom_up_body bt)
              (fun _ u => map level u = map level t) (length bt) 0 t)
    as [t1 [H1 H2]]; [reflexivity| |now exists t1].
  intros k u Hk Hu.
  destruct (nth_error bt k) as [lev|] eqn:El;
    [|apply nth_error_None in El; lia].
  destruct (py_index bt (Z.of_nat k - 1)) as [lb|] eqn:Eb;
    [|exfalso; apply (py_index_lookback bt k); [lia|assumption]].
  assert (Hl : sel u lev <> None).
  { apply (sel_Some_levels t u lev Hu). apply Hsel.
    eapply nth_error_In; eauto. }
  destruct (sel u lev) as [r|] eqn:Er; [|contradiction].
  destruct (any_isnan r && Qlt_bool lev 50) eqn:G.
  - assert (Hb : sel u lb <> None).
    { apply (sel_Some_levels t u lb Hu). apply Hsel.
      unfold py_index in Eb.
      destruct (0 <=? Z.of_nat k - 1)%Z; [eapply nth_error_In; eauto|].
      destruct (- Z.of_nat (length bt) <=? Z.of_nat k - 1)%Z;
        [eapply nth_error_In; eauto|discriminate]. }
    destruct (sel u lb) as [seed|] eqn:Es; [|contradiction].
    exists (set_level u lev (fill_row (lapse_bottom_up lev) r seed)).
    split.
    + unfold bottom_up_body. rewrite El; simpl. rewrite Eb; simpl.
      rewrite Er; simpl. rewrite G. now rewrite Es.
    + now rewrite set_level_levels.
  - exists u. split; [|assumption].
    eapply bottom_up_body_skip; eauto.
Qed.

(** Lines 73, 99, 117, 134.  When no more levels are requested than the
    array has entries, the call returns exactly when every requested level
    is a label of the array: a level that is not raises [KeyError], and
    nothing else raises. *)
Theorem ext_temperature_returns_iff (t : field) (plevs : list Q) :
  (length plevs <= length t)%nat ->
  (ext_temperature t plevs <> None <->
   forall lev, In lev plevs -> sel t lev <> None).
Proof.
  intros Hlen. split.
  - intros H lev Hin Hn. apply H.
    now apply (ext_temperature_KeyError t plevs lev).
  - intros Hsel. unfold ext_temperature.
    destruct (top_down_returns t (sort plevs)) as [t1 [H1 L1]].
    + intros lev Hin. apply Hsel. now apply sort_In.
    + rewrite (Permutation_length (Permutation_sym (sort_perm plevs))).
      exact Hlen.
    + rewrite H1. simpl.
      destruct (bottom_up_returns t1 (rev (sort plevs))) as [t' [H2 _]].
      * intros lev Hin. apply (sel_Some_levels t t1 lev L1). apply Hsel.
        apply sort_In. now apply in_rev.
      * rewrite H2. discriminate.
Qed.

(** ** What the call leaves alone *)

Lemma set_level_shape (u : field) (lev : Q) (vs : list cell) (r : row) :
  sel u lev = Some r -> length vs = length (values r) ->
  map shape (set_level u lev vs) = map shape u.
Proof.
  induction u as [|a u IH]; simpl; [discriminate|].
  destruct (Qeq_bool (level a) lev); simpl.
  - intros H Hl. inversion H; subst a. unfold shape at 1; simpl.
    now rewrite Hl.
  - intros H Hl. now rewrite IH.
Qed.

Lemma top_down_body_shape (s : list Q) (i : nat) (u u' : field) :
  top_down_body s i u = Some u' -> map shape u' = map shape u.
Proof.
  intros H.
  destruct (top_down_body_cases _ _ _ _ H)
    as [lev [t_p [_ [Hsel [[-> _]|[_ [_ [ta [_ ->]]]]]]]]]; [reflexivity|].
  apply (set_level_shape u lev _ t_p Hsel). apply fill_cells_length.
Qed.

Lemma bottom_up_body_shape (bt : list Q) (i : nat) (u u' : field) :
  bottom_up_body bt i u = Some u' -> map shape u' = map shape u.
Proof.
  intros H.
  destruct (bottom_up_body_cases _ _ _ _ H)
    as [lev [lb [t_p [_ [_ [Hsel [[-> _]|[_ [_ [ta [_ ->]]]]]]]]]]];
    [reflexivity|].
  apply (set_level_shape u lev _ t_p Hsel). apply fill_cells_length.
Qed.

Lemma for_range_shape (body : nat -> field -> option field) (n i : nat)
      (t t' : field) :
  (forall k u u', body k u = Some u' -> map shape u' = map shape u) ->
  for_range body i n t = Some t' -> map shape t' = map shape t.
Proof.
  intros Hb H.
  apply (for_range_invariant body (fun _ u => map shape u = map shape t)
           n i t t'); [reflexivity| |exact H].
  intros k u u' _ IH Hk. rewrite <- IH. eapply Hb; eauto.
Qed.

Lemma ext_temperature_shape (t : field) (plevs : list Q) (t' : field) :
  ext_temperature t plevs = Some t' -> map shape t' = map shape t.
Proof.
  unfold ext_temperature, top_down, bottom_up. intros H. inv_bind H.
  assert (E1 : map shape x = map shape t)
    by (eapply for_range_shape; [|exact E];
        intros k u u'; apply top_down_body_shape).
  assert (E2 : map shape t' = map shape x)
    by (eapply for_range_shape; [|exact H];
        intros k u u'; apply bottom_up_body_shape).
  congruence.
Qed.

(** Lines 107, 142, 144.  The field that comes back has the dimensions of
    the field that went in: the same entries in the same order, each with
    its level, its standard height and its number of grid cells. *)
Theorem ext_temperature_keeps_shape (t : field) (plevs : list Q)
        (t' : field) :
  ext_temperature t plevs = Some t' ->
  length t' = length t /\ map shape t' = map shape t.
Proof.
  intros H. pose proof (ext_temperature_shape t plevs t' H) as E3.
  split; [|exact E3].
  rewrite <- (length_map shape t'), E3. apply length_map.
Qed.

(** Lines 90, 125.  An entry without a missing cell, and an entry at
    exactly 50 hPa whatever it holds, comes back from the call as it
    went in. *)
Theorem ext_temperature_untouched_entries (t : field) (plevs : list Q)
        (t' : field) (k : nat) (r : row) :
  ext_temperature t plevs = Some t' ->
  nth_error t k = Some r ->
  any_isnan r = false \/ level r == 50 ->
  nth_error t' k = Some r.
Proof.
  unfold ext_temperature, top_down, bottom_up. intros H Hk Hc. inv_bind H.
  assert (H1 : nth_error x k = Some r).
  { apply (for_range_frame (top_down_body (sort plevs))
             (fun r => any_isnan r = false \/ level r <= 50)
             (length (sort plevs)) t x); try assumption.
    - intros j v v' k0 r0. apply top_down_body_frame.
    - destruct Hc as [Hc|Hc]; [now left|right].
      rewrite Hc. apply Qle_refl. }
  apply (for_range_frame (bottom_up_body (rev (sort plevs)))
           (fun r => any_isnan r = false \/ 50 <= level r)
           (length (rev (sort plevs))) x t'); try assumption.
  - intros j v v' k0 r0. apply bottom_up_body_frame.
  - destruct Hc as [Hc|Hc]; [now left|right].
    rewrite Hc. apply Qle_refl.
Qed.

(** ** What the call cannot fill *)

Lemma fill_cells_missing_seed (d : Q) (cur seed : list cell) (j : nat) :
  nth_error cur j = Some None -> nth j seed None = None ->
  nth_error (fill_cells d cur seed) j = Some None.
Proof.
  intros Hc Hs. rewrite (fill_cells_nth _ _ _ _ _ Hc). now rewrite Hs.
Qed.

(** A grid position that is missing in every entry stays missing in every
    entry under an assignment of a fill, whatever entry seeds it. *)
Lemma set_level_fill_column (u : field) (lev lapse : Q) (t_p seed : row)
      (j : nat) :
  sel u lev = Some t_p -> In seed u ->
  (forall r, In r u -> nth_error (values r) j = Some None) ->
  forall r, In r (set_level u lev (fill_row lapse t_p seed)) ->
            nth_error (values r) j = Some None.
Proof.
  intros Hsel Hseed Hcol r Hr.
  apply In_nth_error in Hr. destruct Hr as [k Hk].
  assert (Hlt : (k < length u)%nat).
  { rewrite <- (length_map level u), <- (set_level_levels u lev
      (fill_row lapse t_p seed)), length_map.
    apply nth_error_Some. congruence. }
  destruct (nth_error u k) as [r0|] eqn:E0;
    [|apply nth_error_None in E0; lia].
  destruct (set_level_nth u lev (fill_row lapse t_p seed) k r0 E0)
    as [r' [H1 [_ [_ H4]]]].
  rewrite Hk in H1. inversion H1; subst r'.
  destruct H4 as [H4|[H4 H5]].
  - rewrite H4. apply Hcol. eapply nth_error_In; eauto.
  - rewrite Hsel in H4. inversion H4; subst r0. rewrite H5.
    unfold fill_row. apply fill_cells_missing_seed.
    + apply Hcol. eapply nth_error_In; eauto.
    + apply nth_error_nth_Some. now apply Hcol.
Qed.

Lemma top_down_body_column (s : list Q) (i : nat) (u u' : field) (j : nat) :
  top_down_body s i u = Some u' ->
  (forall r, In r u -> nth_error (values r) j = Some None) ->
  forall r, In r u' -> nth_error (values r) j = Some None.
Proof.
  intros H Hcol.
  destruct (top_down_body_cases _ _ _ _ H)
    as [lev [t_p [_ [Hsel [[-> _]|[_ [_ [ta [Hta ->]]]]]]]]];
    [assumption|].
  apply set_level_fill_column; try assumption.
  unfold isel, py_index in Hta.
  destruct (0 <=? Z.of_nat i - 1)%Z; [eapply nth_error_In; eauto|].
  destruct (- Z.of_nat (length u) <=? Z.of_nat i - 1)%Z;
    [eapply nth_error_In; eauto|discriminate].
Qed.

Lemma bottom_up_body_column (bt : list Q) (i : nat) (u u' : field)
      (j : nat) :
  bottom_up_body bt i u = Some u' ->
  (forall r, In r u -> nth_error (values r) j = Some None) ->
  forall r, In r u' -> nth_error (values r) j = Some None.
Proof.
  intros H Hcol.
  destruct (bottom_up_body_cases _ _ _ _ H)
    as [lev [lb [t_p [_ [_ [Hsel [[-> _]|[_ [_ [ta [Hta ->]]]]]]]]]]];
    [assumption|].
  apply set_level_fill_column; try assumption.
  apply sel_Some in Hta. tauto.
Qed.

(** Lines 105, 140.  No value is made up: a grid position that is missing
    at every level when the call starts is missing at every level when it
    returns. *)
Theorem empty_column_stays_empty (t : field) (plevs : list Q) (t' : field)
        (j : nat) :
  ext_temperature t plevs = Some t' ->
  (forall r, In r t -> nth_error (values r) j = Some None) ->
  forall r, In r t' -> nth_error (values r) j = Some None.
Proof.
  unfold ext_temperature, top_down, bottom_up. intros H Hcol. inv_bind H.
  assert (H1 : forall r, In r x -> nth_error (values r) j = Some None).
  { apply (for_range_invariant (top_down_body (sort plevs))
             (fun _ u => forall r, In r u ->
                                   nth_error (values r) j = Some None)
             (length (sort plevs)) 0 t x); [assumption| |exact E].
    intros k u u' _ IH Hb. eapply top_down_body_column; eauto. }
  apply (for_range_invariant (bottom_up_body (rev (sort plevs)))
           (fun _ u => forall r, In r u ->
                                 nth_error (values r) j = Some None)
           (length (rev (sort plevs))) 0 x t'); [assumption| |exact H].
  intros k u u' _ IH Hb. eapply bottom_up_body_column; eauto.
Qed.

(** ** The iterations on an array stored in the order of the loop *)

Lemma nth_error_map_level (u : field) (i : nat) (lev : Q) :
  nth_error (map level u) i = Some lev ->
  exists r, nth_error u i = Some r /\ level r = lev.
Proof.
  revert i; induction u as [|a u IH]; intros i H.
  - destruct i; discriminate.
  - destruct i as [|i]; simpl in *.
    + inversion H. now exists a.
    + now apply IH.
Qed.

(** Iteration [i] of the first loop works on entry [i], seeded from entry
    [i - 1], or from the last entry when [i] is [0]. *)
Lemma top_down_body_aligned (s : list Q) (i : nat) (u u' : field) :
  map level u = s -> ascending s = true ->
  top_down_body s i u = Some u' ->
  exists r,
    nth_error u i = Some r /\
    ((u' = u /\ (any_isnan r = false \/ level r <= 50)) \/
     (any_isnan r = true /\ 50 < level r /\
      exists seed,
        nth_error u (if Nat.eqb i 0 then length u - 1 else i - 1)
          = Some seed /\
        forall k,
          nth_error u' k =
          if Nat.eqb k i
          then Some (mkRow (level r) (standard_height r)
                       (fill_row (lapse_top_down (level r)) r seed))
          else nth_error u k)).
Proof.
  intros Hs Hasc H.
  destruct (top_down_body_cases _ _ _ _ H)
    as [lev [t_p [Hlev [Hsel Hc]]]].
  rewrite <- Hs in Hlev, Hasc.
  destruct (nth_error_map_level u i lev Hlev) as [r [Hr Hl]]. subst lev.
  rewrite (sel_nth_ascending u i r Hasc Hr) in Hsel.
  inversion Hsel; subst t_p. exists r. split; [assumption|].
  destruct Hc as [Hc|[Hn [Hl [seed [Hseed ->]]]]]; [now left|right].
  repeat split; try assumption. exists seed. split.
  - unfold isel in Hseed. destruct i as [|i].
    + now rewrite py_index_wrap in Hseed.
    + rewrite py_index_pred in Hseed by lia. exact Hseed.
  - intros k. now apply set_level_nth_ascending.
Qed.

(** Iteration [i] of the second loop works on entry [n - 1 - i], seeded
    from entry [n - i], or from the first entry when [i] is [0]. *)
Lemma bottom_up_body_aligned (s : list Q) (i : nat) (u u' : field) :
  map level u = s -> ascending s = true ->
  bottom_up_body (rev s) i u = Some u' ->
  exists r,
    (i < length u)%nat /\
    nth_error u (length u - S i) = Some r /\
    ((u' = u /\ (any_isnan r = false \/ 50 <= level r)) \/
     (any_isnan r = true /\ level r < 50 /\
      exists seed,
        nth_error u (if Nat.eqb i 0 then 0 else length u - i)%nat
          = Some seed /\
        forall k,
          nth_error u' k =
          if Nat.eqb k (length u - S i)
          then Some (mkRow (level r) (standard_height r)
                       (fill_row (lapse_bottom_up (level r)) r seed))
          else nth_error u k)).
Proof.
  intros Hs Hasc H.
  destruct (bottom_up_body_cases _ _ _ _ H)
    as [lev [lb [t_p [Hlev [Hlb [Hsel Hc]]]]]].
  assert (Hlen : length s = length u) by (rewrite <- Hs; apply length_map).
  assert (Hi : (i < length u)%nat).
  { rewrite <- Hlen, <- length_rev. apply nth_error_Some. congruence. }
  rewrite nth_error_rev in Hlev.
  destruct (Nat.ltb_spec i (length s)); [|lia].
  rewrite Hlen in Hlev. rewrite <- Hs in Hlev, Hasc.
  destruct (nth_error_map_level u _ lev Hlev) as [r [Hr Hl]]. subst lev.
  rewrite (sel_nth_ascending u _ r Hasc Hr) in Hsel.
  inversion Hsel; subst t_p. exists r.
  split; [assumption|]. split; [assumption|].
  destruct Hc as [Hc|[Hn [Hl [seed [Hseed ->]]]]]; [now left|right].
  repeat split; try assumption. exists seed. split.
  - assert (Hlbs : nth_error (map level u)
                     (if Nat.eqb i 0 then 0 else length u - i)%nat
                   = Some lb).
    { rewrite Hs. destruct i as [|i].
      - rewrite py_index_wrap in Hlb. rewrite nth_error_rev in Hlb.
        rewrite length_rev in Hlb.
        destruct (Nat.ltb_spec (length s - 1) (length s)); [|lia].
        replace (length s - S (length s - 1))%nat with 0%nat in Hlb by lia.
        exact Hlb.
      - rewrite py_index_pred in Hlb by lia. rewrite nth_error_rev in Hlb.
        destruct (Nat.ltb_spec (S i - 1) (length s)); [|lia].
        replace (length s - S (S i - 1))%nat with (length u - S i)%nat
          in Hlb by lia.
        exact Hlb. }
    destruct (nth_error_map_level u _ lb Hlbs) as [r' [Hr' Hl']].
    subst lb. rewrite (sel_nth_ascending u _ r' Hasc Hr') in Hseed.
    inversion Hseed; subst r'. exact Hr'.
  - intros k. now apply set_level_nth_ascending.
Qed.

(** ** Seeds by position and by label *)

(** C4, a seed that is not the level of the iteration before.  On the
    array stored as 1000, 100, 500, 300 hPa the first loop visits 100 hPa
    and then 300 hPa; the gap at 300 hPa is written with the value stored
    at position 0, that of 1000 hPa, and not with the value of 100 hPa. *)
Lemma filled_from_stored_neighbour :
  nth_error (sort shuffled_levels) 0 = Some 100 /\
  nth_error (sort shuffled_levels) 1 = Some 300 /\
  sel shuffled_field 100 = Some (mkRow 100 15.797 [Some 210]) /\
  isel shuffled_field (Z.of_nat 1 - 1) = Some (mkRow 1000 0.111 [Some 288]) /\
  cell_at shuffled_field 3 0 = Some None /\
  exists t' v,
    ext_temperature shuffled_field shuffled_levels = Some t' /\
    cell_at t' 3 0 = Some (Some v) /\
    v == 288 + lapse_top_down 300 * (0.111 - 9.164) /\
    ~ v == 210 + lapse_top_down 300 * (15.797 - 9.164).
Proof.
  repeat (split; [reflexivity|]). eexists. eexists.
  split; [vm_compute; reflexivity|].
  split; [reflexivity|]. split; [reflexivity|].
  intros H. vm_compute in H. discriminate.
Qed.

(** C4 (as the code has it).  From its second iteration on ([i >= 1]), a
    cell that an iteration turns from missing to present receives the value
    of the same grid position at the level of the iteration before, plus
    the lapse rate of the iteration times (height of that level minus
    height of the level being filled): in the first loop on an array whose
    [level] dimension is stored in the strictly ascending order the loop
    walks, where the entry read by position is the entry of that label; in
    the second loop, which reads by label, on any array.  In particular,
    on three ascending levels of which the outer two are fully present, a
    missing cell of the middle level comes out of [ext_temperature] as
    seed plus lapse rate times height difference: seeded from the lower
    pressure with the first loop's rate when the level is above 50 hPa,
    from the higher pressure with the second loop's rate when it is below
    50 hPa. *)
Theorem filled_value_from_previous_level :
  (forall s i u u' k j r r' v,
      map level u = s -> ascending s = true -> (1 <= i)%nat ->
      top_down_body s i u = Some u' ->
      nth_error u k = Some r -> nth_error (values r) j = Some None ->
      nth_error u' k = Some r' -> nth_error (values r') j = Some (Some v) ->
      exists lev prev seed x,
        nth_error s i = Some lev /\ sel u lev = Some r /\
        nth_error s (i - 1) = Some prev /\ sel u prev = Some seed /\
        isel u (Z.of_nat i - 1) = Some seed /\
        nth_error (values seed) j = Some (Some x) /\
        v == x + lapse_top_down lev
                 * (standard_height seed - standard_height r)) /\
  (forall bt i u u' k j r r' v,
      (1 <= i)%nat ->
      bottom_up_body bt i u = Some u' ->
      nth_error u k = Some r -> nth_error (values r) j = Some None ->
      nth_error u' k = Some r' -> nth_error (values r') j = Some (Some v) ->
      exists lev prev seed x,
        nth_error bt i = Some lev /\ sel u lev = Some r /\
        nth_error bt (i - 1) = Some prev /\ sel u prev = Some seed /\
        nth_error (values seed) j = Some (Some x) /\
        v == x + lapse_bottom_up lev
                 * (standard_height seed - standard_height r)) /\
  (forall l0 l1 l2 h0 h1 h2 vs0 vs1 vs2 plevs j x0 x2,
      l0 < l1 -> l1 < l2 -> sort plevs = [l0; l1; l2] ->
      any_isnan (mkRow l0 h0 vs0) = false ->
      any_isnan (mkRow l2 h2 vs2) = false ->
      nth_error vs1 j = Some None ->
      nth_error vs0 j = Some (Some x0) ->
      nth_error vs2 j = Some (Some x2) ->
      let t := [mkRow l0 h0 vs0; mkRow l1 h1 vs1; mkRow l2 h2 vs2] in
      (50 < l1 ->
       exists t' v, ext_temperature t plevs = Some t' /\
                    cell_at t' 1 j = Some (Some v) /\
                    v == x0 + lapse_top_down l1 * (h0 - h1)) /\
      (l1 < 50 ->
       exists t' v, ext_temperature t plevs = Some t' /\
                    cell_at t' 1 j = Some (Some v) /\
                    v == x2 + lapse_bottom_up l1 * (h2 - h1))).
Proof.
  split; [|split].
  - intros s i u u' k j r r' v Hs Hasc Hi H Hk Hj Hk' Hj'.
    destruct (top_down_body_filled _ _ _ _ _ _ _ _ _ H Hk Hj Hk' Hj')
      as [lev [seed [x [H1 [H2 [H3 [H4 H5]]]]]]].
    assert (Hn : nth_error u (i - 1) = Some seed)
      by (unfold isel in H3; now rewrite py_index_pred in H3).
    exists lev, (level seed), seed, x. repeat split; try assumption.
    + subst s. now apply map_nth_error.
    + apply (sel_nth_ascending u (i - 1)); [now rewrite Hs|assumption].
  - intros bt i u u' k j r r' v Hi H Hk Hj Hk' Hj'.
    destruct (bottom_up_body_filled _ _ _ _ _ _ _ _ _ H Hk Hj Hk' Hj')
      as [lev [lb [seed [x [H1 [H2 [H3 [H4 [H5 H6]]]]]]]]].
    exists lev, lb, seed, x. repeat split; try assumption.
    now rewrite <- py_index_pred.
  - intros l0 l1 l2 h0 h1 h2 vs0 vs1 vs2 plevs j x0 x2
           H01 H12 Hs F0 F2 Hg Ha Hb t. split; intros H50.
    + exact (three_levels_top_down l0 l1 l2 h0 h1 h2 vs0 vs1 vs2 plevs j x0
               H01 H12 Hs F0 F2 Hg Ha H50).
    + exact (three_levels_bottom_up l0 l1 l2 h0 h1 h2 vs0 vs1 vs2 plevs j x2
               H01 H12 Hs F0 F2 Hg Hb H50).
Qed.

(** C10, an ascending array with a level that is not requested.  The
    array holds 100, 500 and 1000 hPa in ascending order and 500 and
    1000 hPa are requested: the iteration for 1000 hPa reads position 0,
    the entry of 100 hPa, although 500 hPa lies between, and the gap at
    1000 hPa is written from 100 hPa. *)
Lemma seed_skips_unrequested_level :
  ascending (map level unrequested_level_field) = true /\
  nth_error (sort unrequested_level_levels) 1 = Some 1000 /\
  isel unrequested_level_field (Z.of_nat 1 - 1)
    = Some (mkRow 100 15.797 [Some 220]) /\
  sel unrequested_level_field 500 = Some (mkRow 500 5.574 [Some 253]) /\
  100 < 500 /\ 500 < 1000 /\
  exists t' v,
    ext_temperature unrequested_level_field unrequested_level_levels
      = Some t' /\
    cell_at t' 2 0 = Some (Some v) /\
    v == 220 + lapse_top_down 1000 * (15.797 - 0.111) /\
    ~ v == 253 + lapse_top_down 1000 * (5.574 - 0.111).
Proof.
  repeat (split; [reflexivity|]). eexists. eexists.
  split; [vm_compute; reflexivity|].
  split; [reflexivity|]. split; [reflexivity|].
  intros H. vm_compute in H. discriminate.
Qed.

(** C10 (as the code has it).  The first loop walks the sorted copy of
    the supplied levels and reads its seed by position, [isel(level=i-1)].
    On an array whose [level] dimension holds exactly the supplied levels,
    in strictly ascending order, iteration [i >= 1] visits the entry stored
    at position [i] and reads the entry stored at position [i - 1], the
    adjacent level of lower pressure (higher altitude): no level of the
    array lies between the two; when the entry has a NaN above 50 hPa the
    iteration assigns the fill seeded from that entry, otherwise it returns
    the array.  On an array stored in another order the seed can be
    another level: with the levels stored as 1000, 100, 500, 300 hPa and a
    gap at 300 hPa, the iteration for 300 hPa reads the entry of 1000 hPa,
    which is not above it, with 500 hPa lying between the two. *)
Theorem top_down_seed_by_position :
  (forall t plevs i u,
      Permutation plevs (map level t) ->
      ascending (map level t) = true ->
      (1 <= i)%nat -> (i < length plevs)%nat ->
      for_range (top_down_body (sort plevs)) 0 i t = Some u ->
      exists lev t_p seed,
        nth_error (sort plevs) i = Some lev /\
        nth_error u i = Some t_p /\ level t_p = lev /\
        sel u lev = Some t_p /\
        nth_error u (i - 1) = Some seed /\
        isel u (Z.of_nat i - 1) = Some seed /\
        nth_error (sort plevs) (i - 1) = Some (level seed) /\
        level seed < lev /\
        (forall r, In r u -> ~ (level seed < level r /\ level r < lev)) /\
        top_down_body (sort plevs) i u =
          (if any_isnan t_p && Qlt_bool 50 lev
           then Some (set_level u lev
                        (fill_row (lapse_top_down lev) t_p seed))
           else Some u)) /\
  (exists t plevs i u lev t_p seed,
      ascending (map level t) = false /\
      sort (map level t) = sort plevs /\
      for_range (top_down_body (sort plevs)) 0 i t = Some u /\
      nth_error (sort plevs) i = Some lev /\
      sel u lev = Some t_p /\ any_isnan t_p = true /\ 50 < lev /\
      isel u (Z.of_nat i - 1) = Some seed /\
      top_down_body (sort plevs) i u =
        Some (set_level u lev (fill_row (lapse_top_down lev) t_p seed)) /\
      ~ level seed < lev /\
      exists r, In r u /\ lev < level r /\ level r < level seed).
Proof.
  split.
  - intros t plevs i u HP Hasc Hi Hlt Hu.
    assert (Hts : map level t = sort plevs).
    { apply ascending_perm_unique; [assumption|apply sort_sorted|].
      eapply Permutation_trans; [apply Permutation_sym; exact HP|].
      apply sort_perm. }
    assert (Hal : aligned t plevs) by (split; assumption).
    assert (Hls : length (sort plevs) = length plevs)
      by (symmetry; apply Permutation_length, sort_perm).
    destruct (nth_error (sort plevs) i) as [lev|] eqn:Hlev;
      [|apply nth_error_None in Hlev; lia].
    destruct (top_down_seed_aligned t plevs i u lev Hal Hi Hu Hlev)
      as [seed [S1 [S2 [S3 [S4 S5]]]]].
    pose proof (top_down_prefix_levels _ _ _ _ Hu) as Hlv.
    assert (Hus : map level u = sort plevs) by congruence.
    assert (Hua : ascending (map level u) = true) by (rewrite Hlv; exact Hasc).
    assert (Hl : nth_error (map level u) i = Some lev) by (rewrite Hus; exact Hlev).
    destruct (nth_error_map_level u i lev Hl) as [t_p [Hp Hpl]].
    assert (Hsel : sel u lev = Some t_p)
      by (rewrite <- Hpl; now apply (sel_nth_ascending u i)).
    assert (Hn : nth_error u (i - 1) = Some seed)
      by (unfold isel in S1; now rewrite py_index_pred in S1).
    exists lev, t_p, seed. repeat split; try assumption.
    unfold top_down_body. rewrite Hlev. cbn [bind]. rewrite Hsel. cbn [bind].
    destruct (any_isnan t_p && Qlt_bool 50 lev); [|reflexivity].
    now rewrite S1.
  - exists shuffled_field, shuffled_levels, 1%nat, shuffled_field, 300,
           (mkRow 300 9.164 [None]), (mkRow 1000 0.111 [Some 288]).
    repeat split; try reflexivity.
    + intros H. vm_compute in H. discriminate.
    + exists (mkRow 500 5.574 [Some 253]).
      split; [simpl; tauto|split; reflexivity].
Qed.

Lemma filled_value_from_previous_level_witness :
  (exists t' v,
      ext_temperature
        [mkRow 100 15.797 [Some 220]; mkRow 500 5.574 [None];
         mkRow 1000 0.111 [Some 288]] [1000; 500; 100] = Some t' /\
      cell_at t' 1 0 = Some (Some v) /\
      v == 220 + lapse_top_down 500 * (15.797 - 5.574)) /\
  (exists t' v,
      ext_temperature
        [mkRow 10 25.919 [Some 225]; mkRow 20 23.324 [None];
         mkRow 30 21.639 [Some 218]] [30; 10; 20] = Some t' /\
      cell_at t' 1 0 = Some (Some v) /\
      v == 218 + lapse_bottom_up 20 * (21.639 - 23.324)) /\
  (exists r' v lev prev seed x,
      nth_error below_ground_after_500 1 = Some r' /\
      nth_error (values r') 0 = Some (Some v) /\
      nth_error below_ground_levels 1 = Some lev /\
      nth_error below_ground_levels (1 - 1) = Some prev /\
      sel below_ground_field prev = Some seed /\
      nth_error (values seed) 0 = Some (Some x) /\
      v == x + lapse_top_down lev * (standard_height seed - 5.574)).
Proof.
  destruct filled_value_from_previous_level as [A [_ C]].
  split; [|split].
  - destruct (C 100 500 1000 15.797 5.574 0.111 [Some 220] [None] [Some 288]
                [1000; 500; 100] 0%nat 220 288
                eq_refl eq_refl eq_refl eq_refl eq_refl eq_refl eq_refl
                eq_refl) as [Htd _].
    apply Htd. reflexivity.
  - destruct (C 10 20 30 25.919 23.324 21.639 [Some 225] [None] [Some 218]
                [30; 10; 20] 0%nat 225 218
                eq_refl eq_refl eq_refl eq_refl eq_refl eq_refl eq_refl
                eq_refl) as [_ Hbu].
    apply Hbu. reflexivity.
  - destruct (nth_error below_ground_after_500 1) as [r'|] eqn:Er;
      [|vm_compute in Er; discriminate].
    destruct (nth_error (values r') 0) as [[v|]|] eqn:Ev;
      [|vm_compute in Er; inversion Er; subst r'; vm_compute in Ev;
        discriminate ..].
    destruct (A below_ground_levels 1%nat below_ground_field
                below_ground_after_500 1%nat 0%nat (mkRow 500 5.574 [None])
                r' v eq_refl eq_refl (le_n 1) eq_refl eq_refl eq_refl Er Ev)
      as [lev [prev [seed [x [H1 [_ [H3 [H4 [_ [H6 H7]]]]]]]]]].
    exists r', v, lev, prev, seed, x. repeat split; assumption.
Defined.

Lemma top_down_seed_by_position_witness :
  exists lev t_p seed,
    nth_error (sort [1000; 100; 500]) 1 = Some lev /\
    nth_error below_ground_field 1 = Some t_p /\
    nth_error below_ground_field (1 - 1) = Some seed /\
    level seed < lev /\
    top_down_body (sort [1000; 100; 500]) 1 below_ground_field =
      (if any_isnan t_p && Qlt_bool 50 lev
       then Some (set_level below_ground_field lev
                    (fill_row (lapse_top_down lev) t_p seed))
       else Some below_ground_field).
Proof.
  destruct top_down_seed_by_position as [U _].
  destruct (U below_ground_field [1000; 100; 500] 1%nat below_ground_field)
    as [lev [t_p [seed [H1 [H2 [_ [_ [H5 [_ [_ [H8 [_ H10]]]]]]]]]]]].
  - apply (perm_trans (l' := [100; 1000; 500])).
    + apply perm_swap.
    + apply perm_skip. apply perm_swap.
  - reflexivity.
  - lia.
  - simpl. lia.
  - reflexivity.
  - exists lev, t_p, seed. repeat split; assumption.
Defined.

(** ** A gap from the top of the array down to 50 hPa *)

Lemma cell_at_fill_missing (lapse : Q) (r seed : row) (j : nat) :
  nth_error (values r) j = Some None ->
  nth_error (values seed) j = Some None ->
  nth_error (fill_row lapse r seed) j = Some None.
Proof.
  intros Hr Hs. unfold fill_row. apply fill_cells_missing_seed;
    [assumption|now apply nth_error_nth_Some].
Qed.

Lemma bottom_up_body_levels (bt : list Q) (i : nat) (u u' : field) :
  bottom_up_body bt i u = Some u' -> map level u' = map level u.
Proof.
  intros H.
  destruct (bottom_up_body_cases _ _ _ _ H)
    as [lev [lb [t_p [_ [_ [_ [[-> _]|[_ [_ [ta [_ ->]]]]]]]]]]];
    [reflexivity|apply set_level_levels].
Qed.

Section TopGap.

Variable t : field.
Variable plevs : list Q.
Variables k j : nat.
Variables r0 rk : row.
Hypothesis Hal : aligned t plevs.
Hypothesis Hfirst : nth_error t 0 = Some r0.
Hypothesis Hlow : level r0 <= 50.
Hypothesis Hk : nth_error t k = Some rk.
Hypothesis Hhigh : 50 <= level rk.

(** The levels are those of [t] and the grid position is missing in the
    entries [0 .. k]. *)
Let gap (u : field) : Prop :=
  map level u = map level t /\
  forall k', (k' <= k)%nat -> cell_at u k' j = Some None.

Lemma gap_row (u : field) (k' : nat) (r : row) :
  gap u -> (k' <= k)%nat -> nth_error u k' = Some r ->
  nth_error (values r) j = Some None.
Proof.
  intros [_ G] Hle Hr. specialize (G k' Hle). unfold cell_at in G.
  now rewrite Hr in G.
Qed.

Lemma gap_level (u : field) (k' : nat) (r r' : row) :
  gap u -> nth_error u k' = Some r -> nth_error t k' = Some r' ->
  level r = level r'.
Proof.
  intros [L _] Hr Hr'.
  pose proof (map_nth_error level _ _ Hr) as A.
  pose proof (map_nth_error level _ _ Hr') as B.
  rewrite L in A. congruence.
Qed.

Lemma top_down_body_gap (i : nat) (u u' : field) :
  gap u -> top_down_body (sort plevs) i u = Some u' -> gap u'.
Proof.
  intros G H. destruct Hal as [Hts Hasc].
  assert (Hus : map level u = sort plevs) by (destruct G; congruence).
  assert (Has : ascending (sort plevs) = true) by (rewrite <- Hts; exact Hasc).
  destruct (top_down_body_aligned _ _ _ _ Hus Has H)
    as [r [Hr [[-> _]|[Hn [Hl [seed [Hseed Hrows]]]]]]]; [assumption|].
  split.
  - rewrite (top_down_body_levels _ _ _ _ H). now destruct G.
  - intros k' Hle. unfold cell_at. rewrite Hrows.
    destruct (Nat.eqb_spec k' i) as [->|Hne].
    + simpl. destruct i as [|i].
      * exfalso. rewrite (gap_level u 0 r r0 G Hr Hfirst) in Hl.
        exact (Qlt_not_le _ _ Hl Hlow).
      * simpl in Hseed. rewrite Nat.sub_0_r in Hseed.
        apply cell_at_fill_missing.
        -- exact (gap_row u (S i) r G Hle Hr).
        -- apply (gap_row u i seed G); [lia|assumption].
    + destruct G as [_ G]. exact (G k' Hle).
Qed.

Lemma bottom_up_body_gap (i : nat) (u u' : field) :
  gap u -> bottom_up_body (rev (sort plevs)) i u = Some u' -> gap u'.
Proof.
  intros G H. destruct Hal as [Hts Hasc].
  assert (Hus : map level u = sort plevs) by (destruct G; congruence).
  assert (Has : ascending (sort plevs) = true) by (rewrite <- Hts; exact Hasc).
  assert (Hlen : length u = length t).
  { destruct G as [L _]. rewrite <- (length_map level u), L.
    apply length_map. }
  assert (Hkt : (k < length t)%nat) by (apply nth_error_Some; congruence).
  destruct (bottom_up_body_aligned _ _ _ _ Hus Has H)
    as [r [Hi [Hr [[-> _]|[Hn [Hl [seed [Hseed Hrows]]]]]]]]; [assumption|].
  split.
  - rewrite (bottom_up_body_levels _ _ _ _ H). now destruct G.
  - intros k' Hle. unfold cell_at. rewrite Hrows.
    destruct (Nat.eqb_spec k' (length u - S i)) as [->|Hne].
    + simpl.
      assert (Hm : (length u - S i < k)%nat).
      { destruct (Nat.eq_dec (length u - S i) k) as [E|E]; [|lia].
        exfalso. rewrite E in Hr.
        rewrite (gap_level u k r rk G Hr Hk) in Hl.
        exact (Qlt_not_le _ _ Hl Hhigh). }
      destruct i as [|i]; [lia|]. simpl in Hseed.
      apply cell_at_fill_missing.
      * exact (gap_row u _ r G Hle Hr).
      * apply (gap_row u (length u - S i) seed G); [lia|assumption].
    + destruct G as [_ G]. exact (G k' Hle).
Qed.

Lemma ext_temperature_gap (t' : field) :
  (forall k', (k' <= k)%nat -> cell_at t k' j = Some None) ->
  ext_temperature t plevs = Some t' ->
  forall k', (k' <= k)%nat -> cell_at t' k' j = Some None.
Proof.
  intros Hcol H. unfold ext_temperature, top_down, bottom_up in H.
  inv_bind H.
  assert (G1 : gap x).
  { apply (for_range_invariant (top_down_body (sort plevs))
             (fun _ u => gap u) (length (sort plevs)) 0 t x);
      [split; [reflexivity|assumption]| |exact E].
    intros i u u' _ IH Hb. eapply top_down_body_gap; eauto. }
  assert (G2 : gap t').
  { apply (for_range_invariant (bottom_up_body (rev (sort plevs)))
             (fun _ u => gap u) (length (rev (sort plevs))) 0 x t');
      [assumption| |exact H].
    intros i u u' _ IH Hb. eapply bottom_up_body_gap; eauto. }
  now destruct G2.
Qed.

End TopGap.

(** Lines 90, 116, 125, 134.  On an array that holds the requested levels
    in ascending pressure and starts at 50 hPa or less, a grid position
    that is missing from the first entry down to an entry at 50 hPa or
    more is still missing in all those entries when the call returns: a
    gap at the top of the data that reaches 50 hPa is never filled. *)
Theorem top_gap_reaching_50_stays (t : field) (plevs : list Q) (k j : nat)
        (r0 rk : row) (t' : field) :
  aligned t plevs ->
  nth_error t 0 = Some r0 -> level r0 <= 50 ->
  nth_error t k = Some rk -> 50 <= level rk ->
  (forall k', (k' <= k)%nat -> cell_at t k' j = Some None) ->
  ext_temperature t plevs = Some t' ->
  forall k', (k' <= k)%nat -> cell_at t' k' j = Some None.
Proof.
  intros Hal H0 Hl Hk Hh. now apply (ext_temperature_gap t plevs k j r0 rk).
Qed.

(** ** The relation between a filled cell and its neighbour *)

Lemma map_shape_level (u t : field) :
  map shape u = map shape t -> map level u = map level t.
Proof.
  intros H.
  assert (E : forall w, map level w = map (fun p => fst (fst p)) (map shape w))
    by (intros w; rewrite map_map; reflexivity).
  now rewrite (E u), (E t), H.
Qed.

Lemma shape_nth (u t : field) (q : nat) (a : row) :
  map shape u = map shape t -> nth_error u q = Some a ->
  exists b, nth_error t q = Some b /\ shape a = shape b.
Proof.
  intros H Ha. pose proof (map_nth_error shape _ _ Ha) as A.
  rewrite H in A.
  destruct (nth_error t q) as [b|] eqn:Eb.
  - rewrite (map_nth_error shape _ _ Eb) in A.
    exists b. split; [reflexivity|congruence].
  - apply nth_error_None in Eb.
    assert (N : nth_error (map shape t) q = None)
      by (apply nth_error_None; now rewrite length_map).
    congruence.
Qed.

Section Recurrence.

Variable t : field.
Variable plevs : list Q.
Variables r0 rn : row.
Hypothesis Hal : aligned t plevs.
Hypothesis Hns : no_sentinel t = true.
Hypothesis Hfirst : nth_error t 0 = Some r0.
Hypothesis Hlow : level r0 <= 50.
Hypothesis Hlast : nth_error t (length t - 1) = Some rn.
Hypothesis Hhigh : 50 <= level rn.

(** Every cell of [u] that was missing in [t] and is present in [u] holds
    the value of a vertical neighbour in [u] plus lapse rate times height
    difference: the entry before with the rate of the first loop above
    50 hPa, the entry after with the rate of the second loop below. *)
Let rel (u : field) : Prop :=
  forall k r j v,
    nth_error t k = Some r -> nth_error (values r) j = Some None ->
    cell_at u k j = Some (Some v) ->
    (50 < level r /\ (1 <= k)%nat /\
     exists seed x,
       nth_error t (k - 1) = Some seed /\
       cell_at u (k - 1) j = Some (Some x) /\
       v == x + lapse_top_down (level r)
                * (standard_height seed - standard_height r)) \/
    (level r < 50 /\
     exists seed x,
       nth_error t (S k) = Some seed /\
       cell_at u (S k) j = Some (Some x) /\
       v == x + lapse_bottom_up (level r)
                * (standard_height seed - standard_height r)).

Lemma fill_keeps_rel (u u' : field) (m q : nat) (r seed seed_t : row)
      (lapse : Q) :
  rel u ->
  nth_error t m = Some r -> nth_error u m = Some r ->
  nth_error u q = Some seed -> nth_error t q = Some seed_t ->
  standard_height seed = standard_height seed_t -> q <> m ->
  (forall k, nth_error u' k =
             if Nat.eqb k m
             then Some (mkRow (level r) (standard_height r)
                          (fill_row lapse r seed))
             else nth_error u k) ->
  (50 < level r /\ lapse = lapse_top_down (level r) /\ (1 <= m)%nat
   /\ q = (m - 1)%nat) \/
  (level r < 50 /\ lapse = lapse_bottom_up (level r) /\ q = S m) ->
  rel u'.
Proof.
  intros Hrel Htm Hum Huq Htq Hh Hqm Hrows Hside.
  assert (Hpres : forall k j v, cell_at u k j = Some (Some v) ->
                                cell_at u' k j = Some (Some v)).
  { intros k j v Hc. unfold cell_at in *. rewrite Hrows.
    destruct (Nat.eqb_spec k m) as [->|]; [|exact Hc].
    rewrite Hum in Hc. simpl in *. unfold fill_row.
    rewrite (fill_cells_nth _ _ _ _ _ Hc).
    rewrite fill_cell_present; [reflexivity|].
    apply (no_sentinel_spec t m j v Hns). unfold cell_at.
    rewrite Htm. exact Hc. }
  intros k rk j v Hk Hj Hc.
  destruct (Nat.eq_dec k m) as [->|Hne].
  - rewrite Htm in Hk. inversion Hk; subst rk.
    unfold cell_at in Hc. rewrite Hrows, Nat.eqb_refl in Hc. simpl in Hc.
    destruct (fill_row_missing lapse r seed j v Hj Hc) as [x [Hx Hv]].
    assert (Hxs : cell_at u' q j = Some (Some x)).
    { apply Hpres. unfold cell_at. rewrite Huq. exact Hx. }
    destruct Hside as [[Hl [-> [Hm ->]]]|[Hl [-> ->]]].
    + left. split; [assumption|split; [assumption|]].
      exists seed_t, x. rewrite <- Hh. auto.
    + right. split; [assumption|].
      exists seed_t, x. rewrite <- Hh. auto.
  - assert (Hc' : cell_at u k j = Some (Some v)).
    { unfold cell_at in *. rewrite Hrows in Hc.
      destruct (Nat.eqb_spec k m); [contradiction|exact Hc]. }
    destruct (Hrel k rk j v Hk Hj Hc')
      as [[A [B [sd [x [C [D E]]]]]]|[A [sd [x [C [D E]]]]]].
    + left. split; [assumption|split; [assumption|]].
      exists sd, x. auto.
    + right. split; [assumption|]. exists sd, x. auto.
Qed.

Let td_inv (i : nat) (u : field) : Prop :=
  map shape u = map shape t /\ rel u /\
  forall k r, nth_error t k = Some r ->
              (i <= k)%nat \/ level r <= 50 -> nth_error u k = Some r.

Let bu_inv (i : nat) (u : field) : Prop :=
  map shape u = map shape t /\ rel u /\
  forall k r, nth_error t k = Some r -> level r < 50 ->
              (k < length t - i)%nat -> nth_error u k = Some r.

Lemma same_length (u : field) :
  map shape u = map shape t -> length u = length t.
Proof.
  intros H. rewrite <- (length_map shape u), H. apply length_map.
Qed.

Lemma top_down_body_rel (i : nat) (u u' : field) :
  td_inv i u -> top_down_body (sort plevs) i u = Some u' ->
  td_inv (S i) u'.
Proof.
  intros [Hsh [Hrel Hun]] H. destruct Hal as [Hts Hasc].
  assert (Hus : map level u = sort plevs)
    by (rewrite (map_shape_level u t Hsh); exact Hts).
  assert (Has : ascending (sort plevs) = true) by (rewrite <- Hts; exact Hasc).
  pose proof (top_down_body_shape _ _ _ _ H) as Hsh'.
  destruct (top_down_body_aligned _ _ _ _ Hus Has H)
    as [r [Hr [[-> _]|[Hn [Hl [seed [Hseed Hrows]]]]]]].
  - split; [assumption|split; [assumption|]].
    intros k rk Hk [L|L]; apply Hun; auto. left. lia.
  - destruct (shape_nth u t i r Hsh Hr) as [rt [Hrt _]].
    pose proof (Hun i rt Hrt (or_introl (le_n i))) as Hrt'.
    rewrite Hr in Hrt'. inversion Hrt'; subst rt.
    assert (Hi : (1 <= i)%nat).
    { destruct i as [|i]; [|lia]. exfalso.
      rewrite Hfirst in Hrt. inversion Hrt; subst r0.
      exact (Qlt_not_le _ _ Hl Hlow). }
    destruct (Nat.eqb_spec i 0) as [->|_]; [lia|].
    destruct (shape_nth u t (i - 1) seed Hsh Hseed) as [st [Hst Hss]].
    split; [congruence|split].
    + apply (fill_keeps_rel u u' i (i - 1) r seed st
               (lapse_top_down (level r))); try assumption.
      * unfold shape in Hss. now inversion Hss.
      * lia.
      * left. auto.
    + intros k rk Hk Hc. rewrite Hrows.
      destruct (Nat.eqb_spec k i) as [->|Hne].
      * exfalso. rewrite Hrt in Hk. inversion Hk; subst rk.
        destruct Hc as [L|L]; [lia|exact (Qlt_not_le _ _ Hl L)].
      * apply Hun; [assumption|]. destruct Hc as [L|L]; [left; lia|now right].
Qed.

Lemma bottom_up_body_rel (i : nat) (u u' : field) :
  bu_inv i u -> bottom_up_body (rev (sort plevs)) i u = Some u' ->
  bu_inv (S i) u'.
Proof.
  intros [Hsh [Hrel Hun]] H. destruct Hal as [Hts Hasc].
  assert (Hus : map level u = sort plevs)
    by (rewrite (map_shape_level u t Hsh); exact Hts).
  assert (Has : ascending (sort plevs) = true) by (rewrite <- Hts; exact Hasc).
  pose proof (bottom_up_body_shape _ _ _ _ H) as Hsh'.
  pose proof (same_length u Hsh) as Hlen.
  destruct (bottom_up_body_aligned _ _ _ _ Hus Has H)
    as [r [Hi [Hr [[-> _]|[Hn [Hl [seed [Hseed Hrows]]]]]]]].
  - split; [assumption|split; [assumption|]].
    intros k rk Hk L1 L2. apply Hun; auto. lia.
  - destruct (shape_nth u t _ r Hsh Hr) as [rt [Hrt Hrs]].
    assert (Hlr : level r = level rt) by (unfold shape in Hrs; now inversion Hrs).
    assert (Hrt' : nth_error u (length u - S i) = Some rt).
    { apply Hun; [assumption|now rewrite <- Hlr|lia]. }
    rewrite Hr in Hrt'. inversion Hrt'; subst rt.
    assert (Hi1 : (1 <= i)%nat).
    { destruct i as [|i]; [|lia]. exfalso.
      rewrite Hlen in Hrt. rewrite Hlast in Hrt. inversion Hrt; subst rn.
      exact (Qlt_not_le _ _ Hl Hhigh). }
    destruct (Nat.eqb_spec i 0) as [->|_]; [lia|].
    destruct (shape_nth u t _ seed Hsh Hseed) as [st [Hst Hss]].
    split; [congruence|split].
    + apply (fill_keeps_rel u u' (length u - S i) (length u - i) r seed st
               (lapse_bottom_up (level r))); try assumption.
      * unfold shape in Hss. now inversion Hss.
      * lia.
      * right. repeat split; [assumption|lia].
    + intros k rk Hk L1 L2. rewrite Hrows.
      destruct (Nat.eqb_spec k (length u - S i)) as [->|Hne]; [lia|].
      apply Hun; [assumption|assumption|lia].
Qed.

Lemma ext_temperature_rel (t' : field) :
  ext_temperature t plevs = Some t' -> rel t'.
Proof.
  unfold ext_temperature, top_down, bottom_up. intros H. inv_bind H.
  assert (I1 : td_inv (length (sort plevs)) x).
  { apply (for_range_invariant (top_down_body (sort plevs)) td_inv
             (length (sort plevs)) 0 t x); [| |exact E].
    - split; [reflexivity|split; [|auto]].
      intros k r j v Hk Hj Hc. unfold cell_at in Hc. rewrite Hk in Hc.
      simpl in Hc. congruence.
    - intros i u u' _ IH Hb. eapply top_down_body_rel; eauto. }
  assert (I2 : bu_inv (length (rev (sort plevs))) t').
  { apply (for_range_invariant (bottom_up_body (rev (sort plevs))) bu_inv
             (length (rev (sort plevs))) 0 x t'); [| |exact H].
    - destruct I1 as [A [B C]]. split; [assumption|split; [assumption|]].
      intros k r Hk L _. apply C; [assumption|]. right.
      now apply Qlt_le_weak.
    - intros i u u' _ IH Hb. eapply bottom_up_body_rel; eauto. }
  now destruct I2 as [_ [R _]].
Qed.

End Recurrence.

(** Lines 99-108, 134-143, in the setting of [main].  On an array that
    holds the requested levels in ascending pressure, starts at 50 hPa or
    less and ends at 50 hPa or more, with no present cell equal to the
    sentinel, every cell that the call fills satisfies a relation with its
    vertical neighbour in the returned field: above 50 hPa its value is
    that of the entry before plus the first loop's lapse rate times the
    height difference, below 50 hPa that of the entry after plus the second
    loop's rate times the height difference.  No cell is seeded through
    the index -1. *)
Theorem filled_cells_follow_neighbours (t : field) (plevs : list Q)
        (r0 rn : row) (t' : field) (k j : nat) (r : row) (v : Q) :
  aligned t plevs -> no_sentinel t = true ->
  nth_error t 0 = Some r0 -> level r0 <= 50 ->
  nth_error t (length t - 1) = Some rn -> 50 <= level rn ->
  ext_temperature t plevs = Some t' ->
  nth_error t k = Some r -> nth_error (values r) j = Some None ->
  cell_at t' k j = Some (Some v) ->
  (50 < level r /\ (1 <= k)%nat /\
   exists seed x,
     nth_error t (k - 1) = Some seed /\
     cell_at t' (k - 1) j = Some (Some x) /\
     v == x + lapse_top_down (level r)
              * (standard_height seed - standard_height r)) \/
  (level r < 50 /\
   exists seed x,
     nth_error t (S k) = Some seed /\
     cell_at t' (S k) j = Some (Some x) /\
     v == x + lapse_bottom_up (level r)
              * (standard_height seed - standard_height r)).
Proof.
  intros Hal Hns H0 Hl Hn Hh H Hk Hj Hc.
  exact (ext_temperature_rel t plevs r0 rn Hal Hns H0 Hl Hn Hh t' H
           k r j v Hk Hj Hc).
Qed.

(** ** Running the call on its own result *)

Lemma set_level_same (u : field) (lev : Q) (r : row) :
  sel u lev = Some r -> set_level u lev (values r) = u.
Proof.
  induction u as [|a u IH]; simpl; [discriminate|].
  destruct (Qeq_bool (level a) lev).
  - intros H. inversion H; subst a. now destruct r.
  - intros H. now rewrite IH.
Qed.

Lemma fill_cells_id (d : Q) (cur seed : list cell) :
  (forall j c, nth_error cur j = Some c ->
               fill_cell d c (nth j seed None) = c) ->
  fill_cells d cur seed = cur.
Proof.
  revert seed; induction cur as [|c cur IH]; intros seed H; [reflexivity|].
  simpl. f_equal.
  - specialize (H 0%nat c eq_refl). destruct seed; exact H.
  - apply IH. intros j c' Hj. specialize (H (S j) c' Hj).
    destruct seed; simpl in *; [destruct j|]; exact H.
Qed.

Lemma fill_cells_nth_None (d : Q) (cur seed : list cell) (j : nat) :
  nth j cur None = None -> nth j seed None = None ->
  nth j (fill_cells d cur seed) None = None.
Proof.
  revert seed j; induction cur as [|c cur IH]; intros seed j Hc Hs.
  - destruct j; reflexivity.
  - destruct j as [|j]; simpl in *.
    + subst c. destruct seed; simpl in *; [reflexivity|now subst].
    + apply IH; [assumption|]. destruct seed; simpl in *;
        [destruct j; reflexivity|assumption].
Qed.

(** A cell that a fill leaves missing had a missing seed. *)
Lemma fill_row_None (lapse : Q) (r seed : row) (j : nat) :
  (forall v, nth_error (values r) j = Some (Some v) -> ~ v == sentinel) ->
  nth_error (fill_row lapse r seed) j = Some None ->
  nth j (values seed) None = None.
Proof.
  intros Hns H. unfold fill_row in H.
  assert (Hlt : (j < length (values r))%nat).
  { rewrite <- (fill_cells_length (dtemp_of lapse seed r) (values r)
                  (values seed)).
    apply nth_error_Some. congruence. }
  destruct (nth_error (values r) j) as [c|] eqn:Ec;
    [|apply nth_error_None in Ec; lia].
  rewrite (fill_cells_nth _ _ _ _ _ Ec) in H. injection H as H'.
  destruct c as [v|].
  - rewrite fill_cell_present in H'; [discriminate|now apply Hns].
  - rewrite fill_cell_missing in H'.
    destruct (nth j (values seed) None) as [x|] eqn:En;
      [simpl in H'; discriminate|reflexivity].
Qed.

Section Idempotence.

Variable t : field.
Variable plevs : list Q.
Variables r0 rn : row.
Hypothesis Hal : aligned t plevs.
Hypothesis Hns : no_sentinel t = true.
Hypothesis Hfirst : nth_error t 0 = Some r0.
Hypothesis Hlow : level r0 <= 50.
Hypothesis Hlast : nth_error t (length t - 1) = Some rn.
Hypothesis Hhigh : 50 <= level rn.

(** Above 50 hPa, among the entries before [hi], a missing cell sits
    under a missing cell of the entry before. *)
Let closed_above (hi : nat) (u : field) : Prop :=
  forall k r j seed,
    (k < hi)%nat -> nth_error u k = Some r -> 50 < level r ->
    nth_error (values r) j = Some None ->
    nth_error u (k - 1) = Some seed -> nth j (values seed) None = None.

(** Below 50 hPa, among the entries from [lo] on, a missing cell sits
    over a missing cell of the entry after. *)
Let closed_below (lo : nat) (u : field) : Prop :=
  forall k r j seed,
    (lo <= k)%nat -> nth_error u k = Some r -> level r < 50 ->
    nth_error (values r) j = Some None ->
    nth_error u (S k) = Some seed -> nth j (values seed) None = None.

Let td_closed (i : nat) (u : field) : Prop :=
  map shape u = map shape t /\
  (forall k r, nth_error t k = Some r ->
               (i <= k)%nat \/ level r <= 50 -> nth_error u k = Some r) /\
  closed_above i u.

Let bu_closed (i : nat) (u : field) : Prop :=
  map shape u = map shape t /\
  (forall k r, nth_error t k = Some r -> level r < 50 ->
               (k < length t - i)%nat -> nth_error u k = Some r) /\
  closed_above (length t) u /\
  closed_below (length t - i) u.

Lemma row_no_sentinel (k j : nat) (r : row) (v : Q) :
  nth_error t k = Some r -> nth_error (values r) j = Some (Some v) ->
  ~ v == sentinel.
Proof.
  intros Hk Hj. apply (no_sentinel_spec t k j v Hns).
  unfold cell_at. rewrite Hk. exact Hj.
Qed.

Lemma top_down_body_closed (i : nat) (u u' : field) :
  td_closed i u -> top_down_body (sort plevs) i u = Some u' ->
  td_closed (S i) u'.
Proof.
  intros [Hsh [Hun Hcl]] H. destruct Hal as [Hts Hasc].
  assert (Hus : map level u = sort plevs)
    by (rewrite (map_shape_level u t Hsh); exact Hts).
  assert (Has : ascending (sort plevs) = true) by (rewrite <- Hts; exact Hasc).
  pose proof (top_down_body_shape _ _ _ _ H) as Hsh'.
  destruct (top_down_body_aligned _ _ _ _ Hus Has H)
    as [r [Hr [[-> Hg]|[Hn [Hl [seed [Hseed Hrows]]]]]]].
  - split; [assumption|split].
    + intros k rk Hk [L|L]; apply Hun; auto. left. lia.
    + intros k rk j sd Hk Hrk Hlv Hj Hsd.
      destruct (Nat.eq_dec k i) as [->|Hne];
        [|apply (Hcl k rk j sd); auto; lia].
      exfalso. rewrite Hr in Hrk. inversion Hrk; subst rk.
      destruct Hg as [Hg|Hg].
      * rewrite (any_isnan_missing r j Hj) in Hg. discriminate.
      * exact (Qlt_not_le _ _ Hlv Hg).
  - destruct (shape_nth u t i r Hsh Hr) as [rt [Hrt _]].
    pose proof (Hun i rt Hrt (or_introl (le_n i))) as Hrt'.
    rewrite Hr in Hrt'. inversion Hrt'; subst rt.
    assert (Hi : (1 <= i)%nat).
    { destruct i as [|i]; [|lia]. exfalso.
      rewrite Hfirst in Hrt. inversion Hrt; subst r0.
      exact (Qlt_not_le _ _ Hl Hlow). }
    destruct (Nat.eqb_spec i 0) as [->|_]; [lia|].
    split; [congruence|split].
    + intros k rk Hk Hc. rewrite Hrows.
      destruct (Nat.eqb_spec k i) as [->|Hne].
      * exfalso. rewrite Hrt in Hk. inversion Hk; subst rk.
        destruct Hc as [L|L]; [lia|exact (Qlt_not_le _ _ Hl L)].
      * apply Hun; [assumption|]. destruct Hc as [L|L]; [left; lia|now right].
    + intros k rk j sd Hk Hrk Hlv Hj Hsd. rewrite Hrows in Hrk, Hsd.
      destruct (Nat.eqb_spec k i) as [->|Hne].
      * inversion Hrk; subst rk. simpl in Hj.
        destruct (Nat.eqb_spec (i - 1) i); [lia|].
        rewrite Hseed in Hsd. inversion Hsd; subst sd.
        apply (fill_row_None (lapse_top_down (level r)) r seed j);
          [|exact Hj].
        intros v Hv. exact (row_no_sentinel i j r v Hrt Hv).
      * destruct (Nat.eqb_spec (k - 1) i); [lia|].
        apply (Hcl k rk j sd); auto. lia.
Qed.

Lemma bottom_up_body_closed (i : nat) (u u' : field) :
  bu_closed i u -> bottom_up_body (rev (sort plevs)) i u = Some u' ->
  bu_closed (S i) u'.
Proof.
  intros [Hsh [Hun [Hca Hcb]]] H. destruct Hal as [Hts Hasc].
  assert (Hus : map level u = sort plevs)
    by (rewrite (map_shape_level u t Hsh); exact Hts).
  assert (Has : ascending (sort plevs) = true) by (rewrite <- Hts; exact Hasc).
  pose proof (bottom_up_body_shape _ _ _ _ H) as Hsh'.
  pose proof (same_length t u Hsh) as Hlen.
  destruct (bottom_up_body_aligned _ _ _ _ Hus Has H)
    as [r [Hi [Hr [[-> Hg]|[Hn [Hl [seed [Hseed Hrows]]]]]]]].
  - split; [assumption|split; [|split; [assumption|]]].
    + intros k rk Hk L1 L2. apply Hun; auto. lia.
    + intros k rk j sd Hk Hrk Hlv Hj Hsd.
      destruct (Nat.eq_dec k (length u - S i)) as [->|Hne];
        [|apply (Hcb k rk j sd); auto; lia].
      exfalso. rewrite Hr in Hrk. inversion Hrk; subst rk.
      destruct Hg as [Hg|Hg].
      * rewrite (any_isnan_missing r j Hj) in Hg. discriminate.
      * exact (Qlt_not_le _ _ Hlv Hg).
  - destruct (shape_nth u t _ r Hsh Hr) as [rt [Hrt Hrs]].
    assert (Hlr : level r = level rt) by (unfold shape in Hrs; now inversion Hrs).
    assert (Hrt' : nth_error u (length u - S i) = Some rt).
    { apply Hun; [assumption|now rewrite <- Hlr|lia]. }
    rewrite Hr in Hrt'. inversion Hrt'; subst rt.
    assert (Hi1 : (1 <= i)%nat).
    { destruct i as [|i]; [|lia]. exfalso.
      rewrite Hlen in Hrt. rewrite Hlast in Hrt. inversion Hrt; subst rn.
      exact (Qlt_not_le _ _ Hl Hhigh). }
    destruct (Nat.eqb_spec i 0) as [->|_]; [lia|].
    split; [congruence|split; [|split]].
    + intros k rk Hk L1 L2. rewrite Hrows.
      destruct (Nat.eqb_spec k (length u - S i)) as [->|Hne]; [lia|].
      apply Hun; [assumption|assumption|lia].
    + intros k rk j sd Hk Hrk Hlv Hj Hsd. rewrite Hrows in Hrk, Hsd.
      destruct (Nat.eqb_spec k (length u - S i)) as [->|Hne].
      * exfalso. inversion Hrk; subst rk. simpl in Hlv.
        exact (Qlt_irrefl _ (Qlt_trans _ _ _ Hlv Hl)).
      * destruct (Nat.eqb_spec (k - 1) (length u - S i)) as [E|E].
        -- inversion Hsd; subst sd. simpl. unfold fill_row.
           assert (Hks : (length u - i)%nat = k) by lia.
           rewrite Hks in Hseed. rewrite Hrk in Hseed.
           inversion Hseed; subst seed.
           apply fill_cells_nth_None.
           ++ apply (Hca k rk j r); auto. now rewrite E.
           ++ now apply nth_error_nth_Some.
        -- apply (Hca k rk j sd); auto.
    + intros k rk j sd Hk Hrk Hlv Hj Hsd. rewrite Hrows in Hrk, Hsd.
      destruct (Nat.eqb_spec k (length u - S i)) as [->|Hne].
      * inversion Hrk; subst rk. simpl in Hj.
        destruct (Nat.eqb_spec (S (length u - S i)) (length u - S i)); [lia|].
        replace (S (length u - S i)) with (length u - i)%nat in Hsd by lia.
        rewrite Hseed in Hsd. inversion Hsd; subst sd.
        apply (fill_row_None (lapse_bottom_up (level r)) r seed j);
          [|exact Hj].
        intros v Hv. exact (row_no_sentinel _ j r v Hrt Hv).
      * destruct (Nat.eqb_spec (S k) (length u - S i)); [lia|].
        apply (Hcb k rk j sd); auto. lia.
Qed.

(** What the result of the call satisfies. *)
Lemma ext_temperature_closed (t' : field) :
  ext_temperature t plevs = Some t' ->
  map shape t' = map shape t /\
  closed_above (length t) t' /\ closed_below 0 t'.
Proof.
  unfold ext_temperature, top_down, bottom_up. intros H. inv_bind H.
  destruct Hal as [Hts Hasc].
  assert (Hlt : length (sort plevs) = length t)
    by (rewrite <- Hts; apply length_map).
  assert (I1 : td_closed (length (sort plevs)) x).
  { apply (for_range_invariant (top_down_body (sort plevs)) td_closed
             (length (sort plevs)) 0 t x); [| |exact E].
    - split; [reflexivity|split; [auto|]].
      intros k r j sd Hk. lia.
    - intros i u u' _ IH Hb. eapply top_down_body_closed; eauto. }
  assert (I2 : bu_closed (length (rev (sort plevs))) t').
  { apply (for_range_invariant (bottom_up_body (rev (sort plevs))) bu_closed
             (length (rev (sort plevs))) 0 x t'); [| |exact H].
    - destruct I1 as [A [B C]]. split; [assumption|split; [|split]].
      + intros k r Hk L _. apply B; [assumption|]. right.
        now apply Qlt_le_weak.
      + now rewrite <- Hlt.
      + intros k r j sd Hk Hr. exfalso.
        assert (k < length x)%nat by (apply nth_error_Some; congruence).
        rewrite (same_length t x A) in *. lia.
    - intros i u u' _ IH Hb. eapply bottom_up_body_closed; eauto. }
  destruct I2 as [A [_ [B C]]]. split; [assumption|split; [assumption|]].
  rewrite length_rev, Hlt, Nat.sub_diag in C. exact C.
Qed.

(** An array with these two properties, and without the sentinel, goes
    through both loops unchanged. *)
Lemma closed_is_fixed (u : field) :
  map shape u = map shape t -> no_sentinel u = true ->
  closed_above (length t) u -> closed_below 0 u ->
  ext_temperature u plevs = Some u.
Proof.
  intros Hsh Hnu Hca Hcb. destruct Hal as [Hts Hasc].
  assert (Hus : map level u = sort plevs)
    by (rewrite (map_shape_level u t Hsh); exact Hts).
  assert (Has : ascending (sort plevs) = true) by (rewrite <- Hts; exact Hasc).
  assert (Hua : ascending (map level u) = true) by (rewrite Hus; exact Has).
  pose proof (same_length t u Hsh) as Hlen.
  assert (Hls : length (sort plevs) = length u)
    by (rewrite <- Hus; apply length_map).
  assert (Hfix : forall k r seed lapse,
             nth_error u k = Some r ->
             (forall j, nth_error (values r) j = Some None ->
                        nth j (values seed) None = None) ->
             set_level u (level r) (fill_row lapse r seed) = u).
  { intros k r seed lapse Hr Hc.
    assert (E : fill_row lapse r seed = values r).
    { unfold fill_row. apply fill_cells_id. intros j c Hj.
      destruct c as [v|].
      - apply fill_cell_present.
        apply (no_sentinel_spec u k j v Hnu). unfold cell_at.
        rewrite Hr. exact Hj.
      - rewrite (Hc j Hj). reflexivity. }
    rewrite E. apply set_level_same. now apply (sel_nth_ascending u k). }
  unfold ext_temperature, top_down, bottom_up.
  rewrite for_range_fixed.
  - cbn [bind]. apply for_range_fixed. intros i Hi.
    rewrite length_rev in Hi.
    destruct (nth_error u (length u - S i)) as [r|] eqn:Er;
      [|apply nth_error_None in Er; lia].
    assert (Hlev : nth_error (rev (sort plevs)) i = Some (level r)).
    { rewrite nth_error_rev.
      destruct (Nat.ltb_spec i (length (sort plevs))); [|lia].
      rewrite Hls, <- Hus. now apply map_nth_error. }
    destruct (py_index (rev (sort plevs)) (Z.of_nat i - 1)) as [lb|] eqn:Elb.
    2:{ exfalso. apply (py_index_lookback (rev (sort plevs)) i);
          [rewrite length_rev; lia|assumption]. }
    pose proof (sel_nth_ascending u _ r Hua Er) as Hsel.
    destruct (any_isnan r && Qlt_bool (level r) 50) eqn:G;
      [|eapply bottom_up_body_skip; eauto].
    apply andb_true_iff in G. destruct G as [Gn Gl].
    apply Qlt_bool_iff in Gl.
    assert (Hi1 : (1 <= i)%nat).
    { destruct i as [|i]; [|lia]. exfalso.
      destruct (shape_nth u t _ r Hsh Er) as [rt [Hrt Hrs]].
      rewrite Hlen in Hrt. rewrite Hlast in Hrt. inversion Hrt; subst rt.
      assert (Hlr : level r = level rn)
        by (unfold shape in Hrs; now inversion Hrs).
      rewrite Hlr in Gl. exact (Qlt_not_le _ _ Gl Hhigh). }
    destruct (nth_error u (S (length u - S i))) as [seed|] eqn:Es;
      [|apply nth_error_None in Es; lia].
    assert (Hlb : lb = level seed).
    { rewrite py_index_pred in Elb by lia. rewrite nth_error_rev in Elb.
      destruct (Nat.ltb_spec (i - 1) (length (sort plevs))); [|lia].
      replace (length (sort plevs) - S (i - 1))%nat
        with (S (length u - S i)) in Elb by lia.
      rewrite <- Hus in Elb. rewrite (map_nth_error level _ _ Es) in Elb.
      now inversion Elb. }
    pose proof (sel_nth_ascending u _ seed Hua Es) as Hseed.
    rewrite <- Hlb in Hseed.
    rewrite (bottom_up_body_fill (rev (sort plevs)) i u (level r) lb r seed
               Hlev Elb Hsel Gn Gl Hseed).
    f_equal. apply (Hfix (length u - S i)%nat); [assumption|].
    intros j Hj. apply (Hcb (length u - S i)%nat r j seed); auto. lia.
  - intros i Hi.
    destruct (nth_error u i) as [r|] eqn:Er;
      [|apply nth_error_None in Er; lia].
    assert (Hlev : nth_error (sort plevs) i = Some (level r))
      by (rewrite <- Hus; now apply map_nth_error).
    pose proof (sel_nth_ascending u i r Hua Er) as Hsel.
    destruct (any_isnan r && Qlt_bool 50 (level r)) eqn:G;
      [|eapply top_down_body_skip; eauto].
    apply andb_true_iff in G. destruct G as [Gn Gl].
    apply Qlt_bool_iff in Gl.
    assert (Hi1 : (1 <= i)%nat).
    { destruct i as [|i]; [|lia]. exfalso.
      destruct (shape_nth u t _ r Hsh Er) as [rt [Hrt Hrs]].
      rewrite Hfirst in Hrt. inversion Hrt; subst rt.
      assert (Hlr : level r = level r0)
        by (unfold shape in Hrs; now inversion Hrs).
      rewrite Hlr in Gl. exact (Qlt_not_le _ _ Gl Hlow). }
    destruct (nth_error u (i - 1)) as [seed|] eqn:Es;
      [|apply nth_error_None in Es; lia].
    assert (Hisel : isel u (Z.of_nat i - 1) = Some seed)
      by (unfold isel; rewrite py_index_pred by lia; exact Es).
    rewrite (top_down_body_fill (sort plevs) i u (level r) r seed
               Hlev Hsel Gn Gl Hisel).
    f_equal. apply (Hfix i); [assumption|].
    intros j Hj. apply (Hca i r j seed); auto. lia.
Qed.

End Idempotence.

(** Lines 64-144.  On an array that holds the requested levels in
    ascending pressure, starts at 50 hPa or less and ends at 50 hPa or
    more, with no cell equal to the sentinel before or after, the call is
    idempotent: run on its own result it returns that result, so every
    cell it left missing stays missing however often it runs. *)
Theorem ext_temperature_idempotent (t : field) (plevs : list Q)
        (r0 rn : row) (t' : field) :
  aligned t plevs -> no_sentinel t = true ->
  nth_error t 0 = Some r0 -> level r0 <= 50 ->
  nth_error t (length t - 1) = Some rn -> 50 <= level rn ->
  ext_temperature t plevs = Some t' ->
  no_sentinel t' = true ->
  ext_temperature t' plevs = Some t'.
Proof.
  intros Hal Hns H0 Hl Hn Hh H Hns'.
  destruct (ext_temperature_closed t plevs r0 rn Hal Hns H0 Hl Hn Hh t' H)
    as [A [B C]].
  exact (closed_is_fixed t plevs r0 rn Hal H0 Hl Hn Hh t' A Hns' B C).
Qed.

(** * The call in [main] *)

(** Lines 180-183, 208-218.  [main] requests 32 ascending levels from 10
    to 1000 hPa and hands [ext_temperature] an array that carries exactly
    these.  The call then returns, with a field of the same dimensions; a
    grid position missing from 10 hPa down to 50 hPa is still missing at
    those four levels; and when no present cell holds the sentinel, every
    cell the call fills is tied to its vertical neighbour in the result:
    the entry before it above 50 hPa, the entry after it below. *)
Theorem main_extrapolation (t : field) :
  map level t = main_plevs ->
  aligned t main_plevs /\
  exists t',
    ext_temperature t main_plevs = Some t' /\
    map shape t' = map shape t /\
    (forall j, (forall k, (k <= 3)%nat -> cell_at t k j = Some None) ->
               forall k, (k <= 3)%nat -> cell_at t' k j = Some None) /\
    (no_sentinel t = true ->
     forall k j r v,
       nth_error t k = Some r -> nth_error (values r) j = Some None ->
       cell_at t' k j = Some (Some v) ->
       (50 < level r /\ (1 <= k)%nat /\
        exists seed x,
          nth_error t (k - 1) = Some seed /\
          cell_at t' (k - 1) j = Some (Some x) /\
          v == x + lapse_top_down (level r)
                   * (standard_height seed - standard_height r)) \/
       (level r < 50 /\
        exists seed x,
          nth_error t (S k) = Some seed /\
          cell_at t' (S k) j = Some (Some x) /\
          v == x + lapse_bottom_up (level r)
                   * (standard_height seed - standard_height r))).
Proof.
  intros Hm.
  assert (Hal : aligned t main_plevs)
    by (split; rewrite Hm; reflexivity).
  split; [exact Hal|].
  assert (Hlen : length t = 32%nat)
    by (rewrite <- (length_map level t), Hm; reflexivity).
  assert (Hsel : forall lev, In lev main_plevs -> sel t lev <> None)
    by (intros lev Hin; apply sel_label; now rewrite Hm).
  destruct (top_down_returns t (sort main_plevs)) as [t1 [H1 L1]].
  { intros lev Hin. apply Hsel. now apply sort_In. }
  { rewrite Hlen. apply Nat.le_refl. }
  destruct (bottom_up_returns t1 (rev (sort main_plevs))) as [t' [H2 _]].
  { intros lev Hin. apply (sel_Some_levels t t1 lev L1). apply Hsel.
    apply sort_In. now apply in_rev. }
  assert (H : ext_temperature t main_plevs = Some t')
    by (unfold ext_temperature; rewrite H1; exact H2).
  destruct (nth_error_map_level t 0 10) as [r0 [Hr0 Hl0]];
    [rewrite Hm; reflexivity|].
  destruct (nth_error_map_level t 3 50) as [r3 [Hr3 Hl3]];
    [rewrite Hm; reflexivity|].
  destruct (nth_error_map_level t 31 1000) as [rn [Hrn Hln]];
    [rewrite Hm; reflexivity|].
  exists t'. split; [exact H|]. split; [|split].
  - exact (ext_temperature_shape t main_plevs t' H).
  - intros j Hcol.
    apply (ext_temperature_gap t main_plevs 3 j r0 r3 Hal Hr0); try assumption.
    + rewrite Hl0. discriminate.
    + rewrite Hl3. discriminate.
  - intros Hns k j r v Hk Hj Hc.
    assert (A : level r0 <= 50) by (rewrite Hl0; discriminate).
    assert (B : nth_error t (length t - 1) = Some rn)
      by (rewrite Hlen; exact Hrn).
    assert (C : 50 <= level rn) by (rewrite Hln; discriminate).
    exact (ext_temperature_rel t main_plevs r0 rn Hal Hns Hr0 A B C t' H
             k r j v Hk Hj Hc).
Qed.

(** * [get_times_nml] *)

Lemma date_range_length (a b : Q) (p : nat) : length (date_range a b p) = p.
Proof. unfold date_range. now rewrite length_map, length_seq. Qed.

Lemma date_range_nth (a b : Q) (p k : nat) :
  (k < p)%nat ->
  nth_error (date_range a b p) k =
  Some (a + inject_Z (Z.of_nat k)
            * ((b - a) / inject_Z (Z.of_nat p - 1))).
Proof.
  intros H. unfold date_range. rewrite nth_error_map, nth_error_seq.
  destruct (Nat.ltb_spec k p); [reflexivity|lia].
Qed.

Lemma nth_error_tl {A : Type} (l : list A) (k : nat) :
  nth_error (tl l) k = nth_error l (S k).
Proof. destruct l; [destruct k|]; reflexivity. Qed.

Lemma inject_Z_pos (n : nat) : (1 <= n)%nat -> 0 < inject_Z (Z.of_nat n).
Proof.
  intros H. unfold Qlt, inject_Z. simpl. lia.
Qed.

Lemma step_time_after (start d : Q) (n k : nat) :
  0 < d -> (1 <= k)%nat -> (1 <= n)%nat -> start < step_time start d n k.
Proof.
  intros Hd Hk Hn. unfold step_time.
  rewrite <- (Qplus_0_r start) at 1. apply Qplus_lt_r.
  apply Qmult_lt_0_compat; [now apply inject_Z_pos|].
  apply Qmult_lt_0_compat; [assumption|].
  apply Qinv_lt_0_compat. now apply inject_Z_pos.
Qed.

Lemma step_time_before (start d : Q) (n k : nat) :
  0 < d -> (k <= n)%nat -> (1 <= n)%nat -> step_time start d n k <= start + d.
Proof.
  intros Hd Hk Hn. unfold step_time. apply Qplus_le_r.
  assert (Hpos : 0 < inject_Z (Z.of_nat n)) by now apply inject_Z_pos.
  assert (E : d == inject_Z (Z.of_nat n) * (d / inject_Z (Z.of_nat n))).
  { field. intros Z0. rewrite Z0 in Hpos. exact (Qlt_irrefl _ Hpos). }
  rewrite E at 2. apply Qmult_le_compat_r.
  - rewrite <- Zle_Qle. lia.
  - apply Qlt_le_weak. apply Qmult_lt_0_compat; [assumption|].
    now apply Qinv_lt_0_compat.
Qed.

Lemma step_time_last (start d : Q) (n : nat) :
  (1 <= n)%nat -> step_time start d n n == start + d.
Proof.
  intros Hn. unfold step_time.
  assert (Hpos : 0 < inject_Z (Z.of_nat n)) by now apply inject_Z_pos.
  field. intros Z0. rewrite Z0 in Hpos. exact (Qlt_irrefl _ Hpos).
Qed.

Section GetTimesFacts.

Variable strptime : string -> string -> option datetime.

(** What a call that returns has read, and what it returns. *)
Lemma get_times_nml_inv (nml : namelist) (n : nat) (times : list Q) :
  get_times_nml strptime nml n = Some times ->
  exists nhyd start_str dur_str start_date run_duration,
    getitem nml "nhyd_model"%string = Some nhyd /\
    getitem nhyd "config_start_time"%string = Some start_str /\
    getitem nhyd "config_run_duration"%string = Some dur_str /\
    strptime start_str "%Y-%m-%d_%H:%M:%S"%string = Some start_date /\
    strptime dur_str "%d_%H:%M:%S"%string = Some run_duration /\
    length times = n /\
    forall k, (k < n)%nat ->
      exists x, nth_error times k = Some x /\
                x == step_time (timestamp start_date)
                       (timedelta (day run_duration) (hour run_duration))
                       n (S k).
Proof.
  unfold get_times_nml. intros H.
  destruct (getitem nml "nhyd_model"%string) as [nhyd|] eqn:E1;
    [cbn [bind] in H|discriminate].
  destruct (getitem nhyd "config_start_time"%string) as [s1|] eqn:E2;
    [cbn [bind] in H|discriminate].
  destruct (getitem nhyd "config_run_duration"%string) as [s2|] eqn:E3;
    [cbn [bind] in H|discriminate].
  destruct (strptime s1 "%Y-%m-%d_%H:%M:%S"%string) as [sd|] eqn:E4;
    [cbn [bind] in H|discriminate].
  destruct (strptime s2 "%d_%H:%M:%S"%string) as [rd|] eqn:E5;
    [cbn [bind] in H|discriminate].
  inversion H as [Ht]. clear H.
  exists nhyd, s1, s2, sd, rd. repeat split; try assumption.
  - destruct (date_range (timestamp sd)
                (timestamp sd + timedelta (day rd) (hour rd)) (n + 1))
      as [|a l] eqn:El.
    + pose proof (date_range_length (timestamp sd)
                    (timestamp sd + timedelta (day rd) (hour rd)) (n + 1)) as L.
      rewrite El in L. simpl in L. lia.
    + pose proof (date_range_length (timestamp sd)
                    (timestamp sd + timedelta (day rd) (hour rd)) (n + 1)) as L.
      rewrite El in L. simpl in *. lia.
  - intros k Hk. rewrite nth_error_tl.
    rewrite date_range_nth by lia. eexists. split; [reflexivity|].
    unfold step_time.
    replace (Z.of_nat (n + 1) - 1)%Z with (Z.of_nat n) by lia.
    apply Qplus_comp; [reflexivity|]. apply Qmult_comp; [reflexivity|].
    unfold Qdiv. apply Qmult_comp; [ring|reflexivity].
Qed.

End GetTimesFacts.

(** Lines 147-161.  A call that returns has found the group [nhyd_model]
    with its two entries and parsed both; it gives as many times as the
    model data has time steps (none for none); the [k]-th of them lies
    [k + 1] of [n] equal steps after the start date, where the run lasts
    the days and hours of [config_run_duration], so the last one is the
    finish date. *)
Theorem get_times_nml_steps
        (strptime : string -> string -> option datetime)
        (nml : namelist) (n : nat) (times : list Q) :
  get_times_nml strptime nml n = Some times ->
  exists nhyd start_str dur_str start_date run_duration,
    getitem nml "nhyd_model"%string = Some nhyd /\
    getitem nhyd "config_start_time"%string = Some start_str /\
    getitem nhyd "config_run_duration"%string = Some dur_str /\
    strptime start_str "%Y-%m-%d_%H:%M:%S"%string = Some start_date /\
    strptime dur_str "%d_%H:%M:%S"%string = Some run_duration /\
    length times = n /\
    (forall k, (k < n)%nat ->
       exists x, nth_error times k = Some x /\
                 x == timestamp start_date
                      + inject_Z (Z.of_nat (S k))
                        * (timedelta (day run_duration) (hour run_duration)
                           / inject_Z (Z.of_nat n))) /\
    ((1 <= n)%nat ->
     exists x, nth_error times (n - 1) = Some x /\
               x == timestamp start_date
                    + timedelta (day run_duration) (hour run_duration)).
Proof.
  intros H.
  destruct (get_times_nml_inv strptime nml n times H)
    as [nhyd [s1 [s2 [sd [rd [E1 [E2 [E3 [E4 [E5 [L N]]]]]]]]]]].
  exists nhyd, s1, s2, sd, rd. repeat split; try assumption.
  intros Hn. destruct (N (n - 1)%nat) as [x [Hx Hq]]; [lia|].
  exists x. split; [assumption|]. rewrite Hq.
  replace (S (n - 1)) with n by lia. now apply step_time_last.
Qed.

(** Lines 157-160.  With a run duration whose day is at least 1 and whose
    hour is not negative, as a parsed [datetime] has them, every time
    returned lies after the start date and not after the finish date: the
    start date itself is not among them. *)
Theorem get_times_nml_after_start
        (strptime : string -> string -> option datetime)
        (nml : namelist) (n : nat) (times : list Q) :
  get_times_nml strptime nml n = Some times ->
  exists nhyd start_str dur_str start_date run_duration,
    getitem nml "nhyd_model"%string = Some nhyd /\
    getitem nhyd "config_start_time"%string = Some start_str /\
    getitem nhyd "config_run_duration"%string = Some dur_str /\
    strptime start_str "%Y-%m-%d_%H:%M:%S"%string = Some start_date /\
    strptime dur_str "%d_%H:%M:%S"%string = Some run_duration /\
    ((1 <= day run_duration)%Z -> (0 <= hour run_duration)%Z ->
     forall x, In x times ->
       timestamp start_date < x /\
       x <= timestamp start_date
            + timedelta (day run_duration) (hour run_duration)).
Proof.
  intros H.
  destruct (get_times_nml_inv strptime nml n times H)
    as [nhyd [s1 [s2 [sd [rd [E1 [E2 [E3 [E4 [E5 [L N]]]]]]]]]]].
  exists nhyd, s1, s2, sd, rd.
  split; [assumption|]. split; [assumption|]. split; [assumption|].
  split; [assumption|]. split; [assumption|].
  intros Hd Hh x Hx.
  apply In_nth_error in Hx. destruct Hx as [k Hk].
  assert (Hlt : (k < n)%nat)
    by (rewrite <- L; apply nth_error_Some; congruence).
  destruct (N k Hlt) as [y [Hy Hq]]. rewrite Hk in Hy.
  inversion Hy; subst y.
  assert (Hpos : 0 < timedelta (day rd) (hour rd)).
  { unfold timedelta. change 0 with (inject_Z 0). rewrite <- Zlt_Qlt. lia. }
  rewrite Hq. split.
  - apply step_time_after; [assumption|lia|lia].
  - apply step_time_before; [assumption|lia|lia].
Qed.

(** * Instances of the further properties *)

Lemma ext_temperature_order_of_levels_witness :
  ext_temperature below_ground_field [1000; 500; 100]
  = ext_temperature below_ground_field (rev [1000; 500; 100]).
Proof.
  apply ext_temperature_order_of_levels.
  - apply Permutation_rev.
  - reflexivity.
Defined.

Lemma ext_temperature_returns_iff_witness :
  ext_temperature below_ground_field below_ground_levels <> None <->
  forall lev, In lev below_ground_levels ->
              sel below_ground_field lev <> None.
Proof.
  apply ext_temperature_returns_iff. simpl. lia.
Defined.

Lemma ext_temperature_keeps_shape_witness :
  exists t',
    ext_temperature two_gaps_field two_gaps_levels = Some t' /\
    length t' = length two_gaps_field /\
    map shape t' = map shape two_gaps_field.
Proof.
  destruct (ext_temperature two_gaps_field two_gaps_levels) as [t'|] eqn:E;
    [|vm_compute in E; discriminate].
  exists t'. split; [reflexivity|].
  now apply (ext_temperature_keeps_shape two_gaps_field two_gaps_levels).
Defined.

Lemma ext_temperature_untouched_entries_witness :
  exists t',
    ext_temperature gap_at_50_field gap_at_50_levels = Some t' /\
    nth_error t' 1 = Some (mkRow 50 19.323 [None]).
Proof.
  destruct (ext_temperature gap_at_50_field gap_at_50_levels) as [t'|] eqn:E;
    [|vm_compute in E; discriminate].
  exists t'. split; [reflexivity|].
  apply (ext_temperature_untouched_entries gap_at_50_field gap_at_50_levels
           t' 1 (mkRow 50 19.323 [None]) E); [reflexivity|].
  right. reflexivity.
Defined.

Lemma empty_column_stays_empty_witness :
  exists t',
    ext_temperature empty_column_field empty_column_levels = Some t' /\
    forall r, In r t' -> nth_error (values r) 1 = Some None.
Proof.
  destruct (ext_temperature empty_column_field empty_column_levels)
    as [t'|] eqn:E; [|vm_compute in E; discriminate].
  exists t'. split; [reflexivity|].
  apply (empty_column_stays_empty empty_column_field empty_column_levels
           t' 1 E).
  intros r [<-|[<-|[<-|[]]]]; reflexivity.
Defined.

Lemma top_gap_reaching_50_stays_witness :
  exists t',
    ext_temperature model_top_field model_top_levels = Some t' /\
    forall k', (k' <= 3)%nat -> cell_at t' k' 0 = Some None.
Proof.
  destruct (ext_temperature model_top_field model_top_levels)
    as [t'|] eqn:E; [|vm_compute in E; discriminate].
  exists t'. split; [reflexivity|].
  apply (top_gap_reaching_50_stays model_top_field model_top_levels 3 0
           (mkRow 10 25.919 [None]) (mkRow 50 19.323 [None]) t').
  - split; reflexivity.
  - reflexivity.
  - discriminate.
  - reflexivity.
  - discriminate.
  - intros k' H. destruct k' as [|[|[|[|k']]]]; try reflexivity. lia.
  - exact E.
Defined.

Lemma filled_cells_follow_neighbours_witness :
  exists t' v,
    ext_temperature two_gaps_field two_gaps_levels = Some t' /\
    cell_at t' 3 0 = Some (Some v) /\
    ((50 < 500 /\ (1 <= 3)%nat /\
      exists seed x,
        nth_error two_gaps_field (3 - 1) = Some seed /\
        cell_at t' (3 - 1) 0 = Some (Some x) /\
        v == x + lapse_top_down 500 * (standard_height seed - 5.574)) \/
     (500 < 50 /\
      exists seed x,
        nth_error two_gaps_field 4 = Some seed /\
        cell_at t' 4 0 = Some (Some x) /\
        v == x + lapse_bottom_up 500 * (standard_height seed - 5.574))).
Proof.
  eexists. eexists.
  split; [vm_compute; reflexivity|]. split; [reflexivity|].
  apply (filled_cells_follow_neighbours two_gaps_field two_gaps_levels
           (mkRow 10 25.919 [Some 225]) (mkRow 1000 0.111 [Some 288])
           _ 3 0 (mkRow 500 5.574 [None])).
  - split; reflexivity.
  - reflexivity.
  - reflexivity.
  - discriminate.
  - reflexivity.
  - discriminate.
  - vm_compute. reflexivity.
  - reflexivity.
  - reflexivity.
  - reflexivity.
Defined.

Lemma main_extrapolation_witness :
  aligned main_example_field main_plevs /\
  exists t',
    ext_temperature main_example_field main_plevs = Some t' /\
    map shape t' = map shape main_example_field /\
    forall k, (k <= 3)%nat -> cell_at t' k 0 = Some None.
Proof.
  destruct (main_extrapolation main_example_field eq_refl)
    as [Hal [t' [H [Hs [Hgap _]]]]].
  split; [exact Hal|]. exists t'. split; [exact H|]. split; [exact Hs|].
  apply Hgap. intros k Hk.
  destruct k as [|[|[|[|k]]]]; try reflexivity. lia.
Defined.

Lemma get_times_nml_steps_witness :
  exists times x,
    get_times_nml example_strptime example_namelist 5 = Some times /\
    length times = 5%nat /\
    nth_error times (5 - 1) = Some x /\
    x == 0 + timedelta 2 12.
Proof.
  destruct (get_times_nml example_strptime example_namelist 5)
    as [times|] eqn:E; [|vm_compute in E; discriminate].
  destruct (get_times_nml_steps example_strptime example_namelist 5 times E)
    as [nhyd [s1 [s2 [sd [rd [E1 [E2 [E3 [E4 [E5 [L [_ Hlast]]]]]]]]]]]].
  destruct Hlast as [x [Hx Hq]]; [lia|].
  vm_compute in E1. inversion E1; subst nhyd.
  vm_compute in E2. inversion E2; subst s1.
  vm_compute in E3. inversion E3; subst s2.
  vm_compute in E4. inversion E4; subst sd.
  vm_compute in E5. inversion E5; subst rd.
  exists times, x. repeat split; assumption.
Defined.

Lemma get_times_nml_after_start_witness :
  exists times,
    get_times_nml example_strptime example_namelist 5 = Some times /\
    forall x, In x times -> 0 < x /\ x <= 0 + timedelta 2 12.
Proof.
  destruct (get_times_nml example_strptime example_namelist 5)
    as [times|] eqn:E; [|vm_compute in E; discriminate].
  destruct (get_times_nml_after_start example_strptime example_namelist 5
              times E)
    as [nhyd [s1 [s2 [sd [rd [E1 [E2 [E3 [E4 [E5 Hin]]]]]]]]]].
  vm_compute in E1. inversion E1; subst nhyd.
  vm_compute in E2. inversion E2; subst s1.
  vm_compute in E3. inversion E3; subst s2.
  vm_compute in E4. inversion E4; subst sd.
  vm_compute in E5. inversion E5; subst rd.
  exists times. split; [reflexivity|]. apply Hin; simpl; lia.
Defined.

Lemma ext_temperature_idempotent_witness :
  exists t',
    ext_temperature model_top_field model_top_levels = Some t' /\
    cell_at t' 0 0 = Some None /\
    ext_temperature t' model_top_levels = Some t'.
Proof.
  eexists. split; [vm_compute; reflexivity|]. split; [reflexivity|].
  apply (ext_temperature_idempotent model_top_field model_top_levels
           (mkRow 10 25.919 [None]) (mkRow 100 15.797 [Some 216])).
  - split; reflexivity.
  - reflexivity.
  - reflexivity.
  - discriminate.
  - reflexivity.
  - discriminate.
  - vm_compute. reflexivity.
  - reflexivity.
Defined.
